(** * x_transformers.nonautoregressive_wrapper

    A shallow embedding of [src/x_transformers/nonautoregressive_wrapper.py]
    and the properties of its masking, scheduling and iterative decoding.

    Conventions.
    - A 2-d tensor is a list of rows ([list (list A)]); the batch dimension
      comes first, as in the source.
    - Floating point values (times, probabilities, scores, random keys) are
      read as exact rationals [Q]. The results of lines 21, 39, 142 and 209
      are rounded by the float arithmetic of the source: [top_k_returns],
      [subset_with] and [decode_of] take an arbitrary value in the place
      of such a result.
    - The sequence model, [torch.rand], [torch.multinomial] and Python's
      [random()] are external: their results enter as arguments (random
      draws) or through an abstract transition on an opaque world.
    - [argsort] and [topk] are run as stable sorts; the order of ties is
      left open by the tensor library, and [topk_result] admits every
      order.
    - [mask_id] is read as an integer; [torch.full] of line 137 stores it
      as an int64. *)

From Stdlib Require Import QArith Qround Lqa Lia Sorted.
From stdpp Require Import base list strings.

Local Open Scope Z_scope.
Local Open Scope Q_scope.
Local Open Scope nat_scope.

(** ** Rationals: strict comparison, clamp, truncation *)

Definition Qltb (x y : Q) : bool := negb (Qle_bool y x).

Definition Qmax (x y : Q) : Q := if Qle_bool x y then y else x.

(** [t.long()] on a float tensor truncates toward zero. *)
Definition Qtrunc (q : Q) : Z :=
  if Qle_bool 0 q then Qfloor q else Qceiling q.

Definition Qnat (n : nat) : Q := inject_Z (Z.of_nat n).

(** ** Probability helpers (source lines 29-33) *)

(** [sample_prob prob] is [random() < prob]; [r] is the value drawn by
    [random()]. *)
Definition sample_prob (prob : Q) (r : Q) : bool := Qltb r prob.

Definition coin_flip (r : Q) : bool := sample_prob (1 # 2) r.

(** The two gates of [forward], lines 220 and 226:
    [self.no_replace_prob > 0. and coin_flip()]. *)
Definition no_replace_gate (no_replace_prob : Q) (r : Q) : bool :=
  Qltb 0 no_replace_prob && coin_flip r.

Definition random_token_gate (random_token_prob : Q) (r : Q) : bool :=
  Qltb 0 random_token_prob && coin_flip r.

(** Python's [random()] returns [k / 2^53] with [k] uniform below [2^53].
    [grid N] is the uniform grid [0/N, 1/N, ..., (N-1)/N]; the case
    [N = 2^53] is the distribution of [random()]. *)
Definition grid (N : nat) : list Q :=
  (λ k, Qnat k / Qnat N)%Q <$> seq 0 N.

Fixpoint count_if {A} (f : A → bool) (l : list A) : nat :=
  match l with
  | [] => 0
  | a :: l' => (if f a then 1 else 0) + count_if f l'
  end.

(** Probability of an event of the draw, on the uniform grid of size [N]. *)
Definition frequency (N : nat) (event : Q → bool) : Q :=
  (Qnat (count_if event (grid N)) / Qnat N)%Q.

(** ** Schedules (source lines 54-59) *)

Definition linear_schedule (t : Q) : Q := (1 - t)%Q.

(** ** Construction: resolving the [schedule] argument (lines 99-106) *)

(** The values the [schedule] argument can take: a string, a callable, or
    any other object (neither callable nor equal to a string). *)
Inductive schedule_arg :=
| ScheduleName (name : string)
| ScheduleCallable (f : Q → Q)
| ScheduleOther.

(** What [self.schedule_fn] is bound to. [cosine_schedule] is
    [torch.cos(t * pi / 2)]: it is kept as a tag. *)
Inductive schedule_fn_value :=
| LinearSchedule
| CosineSchedule
| CustomSchedule (f : Q → Q).

Inductive init_error :=
| ValueError_invalid_schedule (schedule : schedule_arg).

Definition callable (schedule : schedule_arg) : bool :=
  match schedule with ScheduleCallable _ => true | _ => false end.

(** [schedule == name] for a string literal [name]. *)
Definition eq_name (schedule : schedule_arg) (name : string) : bool :=
  match schedule with
  | ScheduleName s => bool_decide (s = name)
  | _ => false
  end.

(** Lines 99-106. The first [if] binds [schedule_fn] and falls through to
    the second [if]/[elif]/[else] chain. *)
Definition init_schedule (schedule : schedule_arg)
  : init_error + schedule_fn_value :=
  let schedule_fn := if callable schedule then Some schedule else None in
  if eq_name schedule "linear" then inr LinearSchedule
  else if eq_name schedule "cosine" then inr CosineSchedule
  else inl (ValueError_invalid_schedule schedule).

(** ** Tensor helpers *)

Abbreviation tensor A := (list (list A)).

(** [mask.sum(dim = -1)] of one row. *)
Definition sum_mask (m : list bool) : nat := count_if id m.

Fixpoint map3 {A B C D} (f : A → B → C → D)
    (la : list A) (lb : list B) (lc : list C) : list D :=
  match la, lb, lc with
  | a :: la', b :: lb', c :: lc' => f a b c :: map3 f la' lb' lc'
  | _, _, _ => []
  end.

(** [torch.where(cond, a, b)], elementwise. *)
Definition where_row {A} (cond : list bool) (a b : list A) : list A :=
  map3 (λ (c : bool) x y, if c then x else y) cond a b.

Definition where_ {A} (cond : tensor bool) (a b : tensor A) : tensor A :=
  map3 where_row cond a b.

(** [t.masked_fill(mask, v)]; also [torch.where(mask, v, t)] for a scalar
    [v]. *)
Definition masked_fill_row {A} (t : list A) (mask : list bool) (v : A)
  : list A :=
  zip_with (λ x (m : bool), if m then v else x) t mask.

Definition masked_fill {A} (t : tensor A) (mask : tensor bool) (v : A)
  : tensor A :=
  zip_with (λ r m, masked_fill_row r m v) t mask.

(** [~mask] *)
Definition not_row (mask : list bool) : list bool := negb <$> mask.
Definition not_ (mask : tensor bool) : tensor bool := not_row <$> mask.

(** [a &= ~b] *)
Definition and_not_row (a b : list bool) : list bool :=
  zip_with (λ p q, p && negb q) a b.
Definition and_not (a b : tensor bool) : tensor bool :=
  zip_with and_not_row a b.

(** [x[mask]] for a boolean mask: the selected entries in row-major order. *)
Fixpoint select_row {A} (x : list A) (mask : list bool) : list A :=
  match x, mask with
  | v :: x', m :: mask' =>
      if m then v :: select_row x' mask' else select_row x' mask'
  | _, _ => []
  end.

Definition masked_select {A} (x : tensor A) (mask : tensor bool) : list A :=
  concat (zip_with select_row x mask).

(** ** Sorting: [argsort] and [topk] *)

Definition enumerate {A} (l : list A) : list (nat * A) :=
  zip (seq 0 (length l)) l.

(** Stable insertion: [x] (of lower index than every entry of [l]) goes
    after [y] only when [y] strictly precedes it. *)
Fixpoint insert_by (precedes : Q → Q → bool) (x : nat * Q)
    (l : list (nat * Q)) : list (nat * Q) :=
  match l with
  | [] => [x]
  | y :: l' =>
      if precedes y.2 x.2 then y :: insert_by precedes x l' else x :: y :: l'
  end.

Definition sort_by (precedes : Q → Q → bool) (l : list (nat * Q))
  : list (nat * Q) :=
  foldr (insert_by precedes) [] l.

(** [keys.argsort(dim = -1)] of one row: entry [i] is the index of the
    [i]-th smallest key. *)
Definition argsort (keys : list Q) : list nat :=
  fst <$> sort_by Qltb (enumerate keys).

Definition sort_desc (scores : list Q) : list (nat * Q) :=
  sort_by (λ a b, Qltb b a) (enumerate scores).

(** [scores.topk(k, dim = -1).indices] of one row; [None] is the
    RuntimeError raised when [k] is out of range. *)
Definition topk_row (scores : list Q) (k : Z) : option (list nat) :=
  if ((k <? 0) || (Z.of_nat (length scores) <? k))%Z then None
  else Some (take (Z.to_nat k) (fst <$> sort_desc scores)).

Definition topk (scores : tensor Q) (k : Z) : option (tensor nat) :=
  mapM (λ row, topk_row row k) scores.

(** [dst.scatter(1, idxs, True)] of one row. *)
Definition scatter_row (dst : list bool) (idxs : list nat) : list bool :=
  foldl (λ acc i, <[i:=true]> acc) dst idxs.

Definition scatter (dst : tensor bool) (idxs : tensor nat) : tensor bool :=
  zip_with scatter_row dst idxs.

(** [torch.zeros_like(scores, dtype = torch.bool)] *)
Definition zeros_like {A} (t : tensor A) : tensor bool :=
  (λ row : list A, (λ _ : A, false) <$> row) <$> t.

(** ** get_mask_subset_prob (source lines 37-50) *)

(** Lines 39 and 45-49, from the result of the [argsort] of line 43. *)
Definition subset_of_randperm (randperm : list nat) (mask : list bool)
    (prob min_mask : Q) : list bool :=
  let num_to_mask := Qmax (Qnat (sum_mask mask) * prob) min_mask in
  let randperm := Qnat <$> randperm in
  let num_padding := sum_mask (not_row mask) in
  let randperm := (λ r, r - Qnat num_padding)%Q <$> randperm in
  let subset_mask := (λ r, Qltb r num_to_mask) <$> randperm in
  masked_fill_row subset_mask (not_row mask) false.

(** One row; [keys] is the row of [torch.rand((batch, seq))]. *)
Definition get_mask_subset_prob_row (keys : list Q) (mask : list bool)
    (prob min_mask : Q) : list bool :=
  let logits := masked_fill_row keys (not_row mask) (-1)%Q in
  subset_of_randperm (argsort logits) mask prob min_mask.

Definition get_mask_subset_prob (keys : tensor Q) (mask : tensor bool)
    (prob min_mask : Q) : tensor bool :=
  zip_with (λ k m, get_mask_subset_prob_row k m prob min_mask) keys mask.

(** ** The wrapper *)

Record wrapper := {
  mask_id : Z;
  steps : nat;
  max_seq_len : nat;
  num_tokens : Z;
  no_replace_prob : Q;
  random_token_prob : Q;
  schedule_fn : Q → Q;
  self_cond : bool;
  self_cond_train_prob : Q;
  (** [nn.Module.training] of the wrapper and of the wrapped net *)
  training : bool;
  net_training : bool
}.

(** [self.eval()] and [self.train(mode)] set the flag on the module and on
    its children. *)
Definition train (self : wrapper) (mode : bool) : wrapper :=
  {| mask_id := mask_id self; steps := steps self;
     max_seq_len := max_seq_len self; num_tokens := num_tokens self;
     no_replace_prob := no_replace_prob self;
     random_token_prob := random_token_prob self;
     schedule_fn := schedule_fn self; self_cond := self_cond self;
     self_cond_train_prob := self_cond_train_prob self;
     training := mode; net_training := mode |}.

Definition eval (self : wrapper) : wrapper := train self false.

(** ** forward: the training objective (source lines 197-257) *)

(** The random values [forward] draws, in the order of the source. *)
Record forward_draws := {
  rand_times : list Q;              (* line 205, one time per row *)
  perm_keys : tensor Q;             (* torch.rand((b, n)) of line 206 *)
  flip_no_replace : Q;              (* random() of the coin_flip of line 220 *)
  no_replace_keys : tensor Q;       (* torch.rand of the call of line 223 *)
  flip_random_token : Q;            (* random() of the coin_flip of line 226 *)
  random_token_keys : tensor Q;     (* torch.rand of the call of line 227 *)
  random_tokens : tensor Z;         (* torch.randint of line 228 *)
  flip_self_cond : Q                (* random() of line 240 *)
}.

(** Lines 206-210: the primary mask. *)
Definition num_tokens_mask (self : wrapper) (n : nat) (d : forward_draws)
  : list Q :=
  (λ t, Qmax (schedule_fn self t * Qnat n) 1) <$> rand_times d.

Definition primary_mask (self : wrapper) (n : nat) (d : forward_draws)
  : tensor bool :=
  let batched_randperm := argsort <$> perm_keys d in
  zip_with (λ perm c, (λ r, Qltb (Qnat r) c) <$> perm)
    batched_randperm (num_tokens_mask self n d).

(** The local variables of [forward] that the two optional branches
    update. [replace_mask_id_mask] starts as [mask.clone()], an object of
    its own, so its in-place updates are updates of this field only. *)
Record forward_locals := {
  l_x : tensor Z;
  l_mask : tensor bool;
  l_labels : list Z;
  l_replace_mask_id_mask : tensor bool;
  l_frac_seq_left : Q
}.

(** Lines 220-224 *)
Definition no_replace_branch (self : wrapper) (d : forward_draws)
    (l : forward_locals) : forward_locals :=
  if no_replace_gate (no_replace_prob self) (flip_no_replace d) then
    let frac_seq_left := (l_frac_seq_left l - no_replace_prob self)%Q in
    let no_replace_prob_mask :=
      get_mask_subset_prob (no_replace_keys d) (l_mask l)
        (no_replace_prob self) 0 in
    {| l_x := l_x l; l_mask := l_mask l; l_labels := l_labels l;
       l_replace_mask_id_mask :=
         and_not (l_replace_mask_id_mask l) no_replace_prob_mask;
       l_frac_seq_left := frac_seq_left |}
  else l.

(** Lines 226-231 *)
Definition random_token_branch (self : wrapper) (d : forward_draws)
    (l : forward_locals) : forward_locals :=
  if random_token_gate (random_token_prob self) (flip_random_token d) then
    let random_token_prob_mask :=
      get_mask_subset_prob (random_token_keys d) (l_replace_mask_id_mask l)
        (random_token_prob self * l_frac_seq_left l)%Q 0 in
    {| l_x := where_ random_token_prob_mask (random_tokens d) (l_x l);
       l_mask := l_mask l; l_labels := l_labels l;
       l_replace_mask_id_mask :=
         and_not (l_replace_mask_id_mask l) random_token_prob_mask;
       l_frac_seq_left := l_frac_seq_left l |}
  else l.

(** What [forward] hands to its collaborators: [masked] to the net, and
    [logits[mask]] with [labels] to [F.cross_entropy]. *)
Record forward_trace := {
  masked : tensor Z;
  self_cond_pass : option bool;
  loss_mask : tensor bool;
  labels : list Z
}.

(** [None] is the AssertionError of line 203. *)
Definition forward (self : wrapper) (x : tensor Z) (d : forward_draws)
  : option forward_trace :=
  if forallb (λ row, length row =? max_seq_len self) x then
    let n := max_seq_len self in
    let mask := primary_mask self n d in
    let l0 := {| l_x := x; l_mask := mask;
                 l_labels := masked_select x mask;
                 l_replace_mask_id_mask := mask;
                 l_frac_seq_left := 1 |} in
    let l1 := no_replace_branch self d l0 in
    let l2 := random_token_branch self d l1 in
    Some {| masked := masked_fill (l_x l2) (l_replace_mask_id_mask l2)
                        (mask_id self);
            self_cond_pass :=
              if self_cond self
              then Some (sample_prob (self_cond_train_prob self)
                           (flip_self_cond d))
              else None;
            loss_mask := l_mask l2;
            labels := l_labels l2 |}
  else None.

(** ** generate: the iterative decoder (source lines 115-195) *)

(** [torch.linspace(0., 1., steps + 1)] *)
Definition linspace01 (steps : nat) : list Q :=
  (λ i, Qnat i / Qnat steps)%Q <$> seq 0 (steps + 1).

(** Line 142 *)
Definition all_mask_num_tokens (self : wrapper) : list Z :=
  (λ t, Qtrunc (schedule_fn self t * Qnat (max_seq_len self)))
    <$> drop 1 (linspace01 (steps self)).

(** Line 149: [zip(all_mask_num_tokens.tolist(), reversed(range(steps)))] *)
Definition round_plan (self : wrapper) : list (Z * nat) :=
  zip (all_mask_num_tokens self) (reverse (seq 0 (steps self))).

(** A tensor of [b] rows of length [n]. *)
Definition shape {A} (b n : nat) (t : tensor A) : Prop :=
  length t = b ∧ Forall (λ row, length row = n) t.

(** [t[b][j]] *)
Definition lookup2 {A} (t : tensor A) (b j : nat) : option A :=
  row ← t !! b; row !! j.

(** Ascending order of keys, the order of [argsort]. *)
Definition asc (x y : nat * Q) : Prop := (x.2 <= y.2)%Q.

(** Descending order of scores, the order of [sort_desc]. *)
Definition desc (x y : nat * Q) : Prop := (y.2 <= x.2)%Q.

Section Decoder.
(** The state of the collaborators: the parameters of the net, the random
    generator, and the embedding carried over for self conditioning. *)
Context {World : Type}.

(** Lines 151-180 of one round: the net on [seq] (in training or
    evaluation mode), filtering, softmax at the temperature, multinomial
    sampling and the gathered scores. It returns [sampled_ids] and
    [scores]. *)
Variable net_sample :
  World → bool → Q → tensor Z → World * (tensor Z * tensor Q).

(** [torch.finfo(scores.dtype).max] *)
Variable finfo_max : Q.

Record gen_state := {
  g_seq : tensor Z;
  g_mask : tensor bool;
  g_world : World
}.

(** One iteration of the loop of line 149. *)
Definition round (self : wrapper) (start_temperature : Q)
    (st : gen_state) (mask_num_tokens : Z) (steps_until_x0 : nat)
  : option gen_state :=
  let temperature :=
    (start_temperature * (Qnat steps_until_x0 / Qnat (steps self)))%Q in
  let '(w, (sampled_ids, scores)) :=
    net_sample (g_world st) (net_training self)
      (Qmax temperature (1 # 1000)) (g_seq st) in
  let seq := where_ (g_mask st) sampled_ids (g_seq st) in
  let scores := masked_fill scores (not_ (g_mask st)) (- finfo_max)%Q in
  match topk scores mask_num_tokens with
  | None => None
  | Some mask_indices =>
      let mask := scatter (zeros_like scores) mask_indices in
      Some {| g_seq := masked_fill seq mask (mask_id self);
              g_mask := mask;
              g_world := w |}
  end.

(** The loop; the result lists the state at the end of every round. *)
Fixpoint rounds (self : wrapper) (start_temperature : Q)
    (st : gen_state) (plan : list (Z * nat)) : option (list gen_state) :=
  match plan with
  | [] => Some []
  | (mask_num_tokens, steps_until_x0) :: plan' =>
      match round self start_temperature st mask_num_tokens
              steps_until_x0 with
      | None => None
      | Some st' => cons st' <$> rounds self start_temperature st' plan'
      end
  end.

(** The state at the start of round [i], for the start [st] of the loop
    and the states [trace] at the end of every round. *)
Definition prev_state (st : gen_state) (trace : list gen_state) (i : nat)
  : gen_state :=
  match i with
  | 0 => st
  | S i' => default st (trace !! i')
  end.

(** Lines 135-138 *)
Definition initial_state (self : wrapper) (batch_size : nat) (w : World)
  : gen_state :=
  {| g_seq := replicate batch_size
                (replicate (max_seq_len self) (mask_id self));
     g_mask := replicate batch_size (replicate (max_seq_len self) true);
     g_world := w |}.

(** Lines 131-188: the loop from the all-masked start. *)
Definition decode (self : wrapper) (batch_size : nat)
    (start_temperature : Q) (w : World) : option (list gen_state) :=
  rounds self start_temperature (initial_state self batch_size w)
    (round_plan self).

Inductive gen_output :=
| OneSequence (seq : list Z)
| Batch (seq : tensor Z).

(** The module after the call, and the value returned; [None] when an
    exception left the call. *)
Definition generate (self : wrapper) (batch_size : option nat)
    (start_temperature : Q) (w : World) : wrapper * option gen_output :=
  let sample_one := negb (bool_decide (is_Some batch_size)) in
  let batch_size := default 1 batch_size in
  let was_training := training self in
  let self := eval self in
  match decode self batch_size start_temperature w with
  | None => (self, None)
  | Some trace =>
      let seq :=
        g_seq (default (initial_state self batch_size w) (last trace)) in
      let self := train self was_training in
      if sample_one then
        match seq with
        | [row] => (self, Some (OneSequence row))
        | _ => (self, None)
        end
      else (self, Some (Batch seq))
  end.

Definition output_tokens (out : gen_output) : list Z :=
  match out with
  | OneSequence seq => seq
  | Batch seq => concat seq
  end.

(** The contract of the collaborators: on a [b] by [n] sequence the
    sampled ids and the scores are [b] by [n], the ids are vocabulary
    ids, and the scores ([1 - p] for a probability [p]) lie in [0, 1]. *)
Definition net_contract (num_tokens : Z) : Prop :=
  ∀ w mode temperature (seq : tensor Z) b n,
    shape b n seq →
    let '(sampled_ids, scores) :=
      (net_sample w mode temperature seq).2 in
    shape b n sampled_ids ∧ shape b n scores ∧
    Forall (Forall (λ v, (0 ≤ v < num_tokens)%Z)) sampled_ids ∧
    Forall (Forall (λ q, (0 <= q <= 1)%Q)) scores.

(** Both tensors of the state are [b] by [n]. *)
Definition state_shape (b n : nat) (st : gen_state) : Prop :=
  shape b n (g_seq st) ∧ shape b n (g_mask st).
(** Every unmasked position holds a vocabulary id. *)
Definition unmasked_in_vocab (num_tokens : Z) (st : gen_state) : Prop :=
  ∀ i j v, lookup2 (g_mask st) i j = Some false →
           lookup2 (g_seq st) i j = Some v →
           (0 ≤ v < num_tokens)%Z.
End Decoder.

(** ** A collaborator and a wrapper for the examples *)

(** The world is a counter; the id sampled at position [j] is
    [(j + w) mod 7] and its score is [1 / (2 + (5 j + w) mod 7)]: on rows
    of at most seven positions no two scores of a row are equal, so the
    choice of [topk] among the masked positions does not depend on the
    order of ties. *)
Definition example_net (w : nat) (mode : bool) (temperature : Q)
    (s : tensor Z) : nat * (tensor Z * tensor Q) :=
  (S w,
   ((λ row : list Z,
       (λ j, Z.of_nat ((j + w) mod 7)) <$> seq 0 (length row)) <$> s,
    (λ row : list Z,
       (λ j, 1 # Pos.of_nat (2 + (j * 5 + w) mod 7))
         <$> seq 0 (length row))
      <$> s)).

Definition example_wrapper : wrapper :=
  {| mask_id := 100; steps := 4; max_seq_len := 6; num_tokens := 100;
     no_replace_prob := 15 # 100; random_token_prob := 5 # 100;
     schedule_fn := linear_schedule;
     self_cond := false; self_cond_train_prob := 3 # 4;
     training := true; net_training := true |}.

(** The largest finite float32, [(2 - 2^-23) * 2^127]. *)
Definition float32_max : Q :=
  inject_Z (2 ^ 128 - 2 ^ 104).

(** The states at the end of the four rounds of the example, for a batch
    of two. *)
Definition example_trace : list (@gen_state nat) :=
  Eval vm_compute in
    default [] (decode example_net float32_max (eval example_wrapper) 2 1 0).

(** The row returned by [generate] on the example, without [batch_size]. *)
Definition example_output_row : list Z :=
  Eval vm_compute in
    match (generate example_net float32_max example_wrapper None 1 0).2 with
    | Some (OneSequence row) => row
    | _ => []
    end.

(** A wrapper whose schedule leaves [0, 1]: its first count is 9 on
    sequences of length 6. *)
Definition example_wrapper_out_of_range : wrapper :=
  {| mask_id := 100; steps := 2; max_seq_len := 6; num_tokens := 100;
     no_replace_prob := 15 # 100; random_token_prob := 5 # 100;
     schedule_fn := λ t, (2 - t)%Q;
     self_cond := false; self_cond_train_prob := 3 # 4;
     training := true; net_training := true |}.

(** Three rounds on sequences of length 3: line 142 gives the counts
    [1, 1, 0] in float32, where exact arithmetic gives [2, 1, 0]. *)
Definition example_wrapper_thirds : wrapper :=
  {| mask_id := 100; steps := 3; max_seq_len := 3; num_tokens := 100;
     no_replace_prob := 15 # 100; random_token_prob := 5 # 100;
     schedule_fn := linear_schedule;
     self_cond := false; self_cond_train_prob := 3 # 4;
     training := true; net_training := true |}.

Definition float32_counts_thirds : list Z := [1; 1; 0]%Z.

(** ** The loop of generate for given counts *)

(** Line 142 is a float32 computation. The loop of lines 149-188 is also
    given for an arbitrary list [counts] in the place of its result. *)
Definition round_plan_of (self : wrapper) (counts : list Z)
  : list (Z * nat) :=
  zip counts (reverse (seq 0 (steps self))).

Definition decode_of {World : Type}
    (net_sample : World → bool → Q → tensor Z → World * (tensor Z * tensor Q))
    (finfo_max : Q) (self : wrapper) (counts : list Z) (batch_size : nat)
    (start_temperature : Q) (w : World) : option (list gen_state) :=
  rounds net_sample finfo_max self start_temperature
    (initial_state self batch_size w) (round_plan_of self counts).

(** ** The conditions of the two optional steps of forward *)

(** Lines 220 and 226: the conditions under which the two steps run. *)
Definition no_replace_runs (self : wrapper) (d : forward_draws) : bool :=
  no_replace_gate (no_replace_prob self) (flip_no_replace d).

Definition random_token_runs (self : wrapper) (d : forward_draws) : bool :=
  random_token_gate (random_token_prob self) (flip_random_token d).

(** The draws [d] with the two coin-flip draws replaced. *)
Definition with_flips (d : forward_draws) (r1 r2 : Q) : forward_draws :=
  {| rand_times := rand_times d; perm_keys := perm_keys d;
     flip_no_replace := r1; no_replace_keys := no_replace_keys d;
     flip_random_token := r2; random_token_keys := random_token_keys d;
     random_tokens := random_tokens d; flip_self_cond := flip_self_cond d |}.

(** Probability of an event of two separate draws, on the uniform grid of
    [N * N] pairs. *)
Definition frequency2 (N : nat) (event : Q → Q → bool) : Q :=
  (Qnat (count_if (λ p : Q * Q, event p.1 p.2)
           (list_prod (grid N) (grid N)))
   / Qnat (N * N))%Q.

(** One batch row and the draws of one call of [forward] on it. *)
Definition example_x : tensor Z := [[11; 12; 13; 14; 15; 16]]%Z.

Definition example_draws : forward_draws :=
  {| rand_times := [1 # 2];
     perm_keys := [[5 # 10; 1 # 10; 9 # 10; 3 # 10; 7 # 10; 2 # 10]];
     flip_no_replace := 1 # 4;
     no_replace_keys := [[6 # 10; 2 # 10; 8 # 10; 4 # 10; 1 # 10; 3 # 10]];
     flip_random_token := 1 # 3;
     random_token_keys :=
       [[2 # 10; 7 # 10; 1 # 10; 9 # 10; 4 # 10; 5 # 10]];
     random_tokens := [[21; 22; 23; 24; 25; 26]]%Z;
     flip_self_cond := 9 # 10 |}.

(** ** top_k (source lines 20-25) *)

(** Line 21: [math.ceil((1 - thres) * logits.shape[-1])]. *)
Definition top_k_count (thres : Q) (vocab : nat) : Z :=
  Qceiling ((1 - thres) * Qnat vocab).

(** A filtered logit; [None] is [float('-inf')]. *)
Abbreviation filtered := (option Q).

(** [probs.scatter_(2, ind, val)] on the vector of one position: entry
    [ind[j]] receives [val[j]]. *)
Definition scatter_vals (dst : list filtered) (ind : list nat)
    (val : list Q) : list filtered :=
  foldl (λ acc iv, <[iv.1 := Some iv.2]> acc) dst (zip ind val).

(** [top_k] on the logits of one position; [None] is the RuntimeError of
    [topk] for a [k] out of range. *)
Definition top_k_vec (logits : list Q) (thres : Q)
  : option (list filtered) :=
  let k := top_k_count thres (length logits) in
  match topk_row logits k with
  | None => None
  | Some ind =>
      let val := take (Z.to_nat k) (sort_desc logits).*2 in
      let probs := replicate (length logits) None in
      Some (scatter_vals probs ind val)
  end.

(** [top_k] on a batch by position by vocabulary tensor. *)
Definition top_k (logits : tensor (list Q)) (thres : Q)
  : option (tensor (list filtered)) :=
  mapM (mapM (λ v, top_k_vec v thres)) logits.

(** The number of logits a filtered vector keeps. *)
Definition kept (probs : list filtered) : nat :=
  count_if (λ p : filtered, bool_decide (is_Some p)) probs.

(** ** top_k and get_mask_subset_prob for given float results *)

(** Lines 22-25 of [top_k], for an arbitrary [k] in the place of the
    float64 result of line 21. *)
Definition top_k_vec_with (k : Z) (logits : list Q)
  : option (list filtered) :=
  match topk_row logits k with
  | None => None
  | Some ind =>
      let val := take (Z.to_nat k) (sort_desc logits).*2 in
      let probs := replicate (length logits) None in
      Some (scatter_vals probs ind val)
  end.

(** What [logits.topk(k, dim = -1)] can return as [val, ind] on one
    vector: [k] distinct positions with their logits, none of them below a
    logit left out. Which of several equal logits is taken is not fixed. *)
Definition topk_result (logits : list Q) (k : Z) (val : list Q)
    (ind : list nat) : Prop :=
  Z.of_nat (length ind) = k ∧ NoDup ind ∧
  Forall2 (λ (j : nat) v, logits !! j = Some v) ind val ∧
  ∀ (j' : nat) v', logits !! j' = Some v' → j' ∉ ind →
    Forall (λ v, (v' <= v)%Q) val.

(** Lines 23-25 of [top_k], from the [val] and [ind] of line 22. *)
Definition top_k_probs (logits : list Q) (val : list Q) (ind : list nat)
  : list filtered :=
  let probs := replicate (length logits) None in
  scatter_vals probs ind val.

(** [top_k] on one vector can return [probs] when line 21 gives [k]. *)
Definition top_k_returns (k : Z) (logits : list Q) (probs : list filtered)
  : Prop :=
  ∃ val ind, topk_result logits k val ind ∧ probs = top_k_probs logits val ind.

(** Lines 45-49 of [get_mask_subset_prob], for an arbitrary [num_to_mask]
    in the place of the float32 result of line 39. *)
Definition subset_with (num_to_mask : Q) (randperm : list nat)
    (mask : list bool) : list bool :=
  let randperm := Qnat <$> randperm in
  let num_padding := sum_mask (not_row mask) in
  let randperm := (λ r, r - Qnat num_padding)%Q <$> randperm in
  let subset_mask := (λ r, Qltb r num_to_mask) <$> randperm in
  masked_fill_row subset_mask (not_row mask) false.

(** Line 210 of [forward], for an arbitrary [batched_randperm] and
    [num_tokens_mask] in the place of the results of lines 206 and 209. *)
Definition primary_mask_with (batched_randperm : tensor nat)
    (num_tokens_mask : list Q) : tensor bool :=
  zip_with (λ perm c, (λ r, Qltb (Qnat r) c) <$> perm)
    batched_randperm num_tokens_mask.

(** The values that [torch.full(shape, self.mask_id)] of line 137 can
    store: a Python int fills an int64 tensor, and a value outside its
    range raises. *)
Definition int64 (z : Z) : Prop := (- 2 ^ 63 ≤ z < 2 ^ 63)%Z.

(** ** The temperature of a round (source lines 149, 166-168) *)

(** [max(start_temperature * (steps_until_x0 / steps), 1e-3)] in round [i],
    where [steps_until_x0] is the [i]-th entry of [reversed(range(steps))]. *)
Definition sampling_temperature (self : wrapper) (start_temperature : Q)
    (i : nat) : Q :=
  Qmax (start_temperature
        * (Qnat (steps self - 1 - i) / Qnat (steps self)))%Q (1 # 1000).

(** What the two optional branches keep: the mask-token positions stay
    within the primary mask, and a token differs from the original only
    at a primary-mask position that received its random token. *)
Definition corrupted_within_mask (x : tensor Z) (d : forward_draws)
    (l : forward_locals) : Prop :=
  (∀ i j, lookup2 (l_replace_mask_id_mask l) i j = Some true →
          lookup2 (l_mask l) i j = Some true) ∧
  (∀ i j v, lookup2 (l_x l) i j = Some v →
     lookup2 x i j = Some v ∨
     (lookup2 (l_mask l) i j = Some true ∧
      lookup2 (random_tokens d) i j = Some v)).

(** * Properties *)

(** ** Rationals and counting *)

Lemma Qltb_lt (x y : Q) : Qltb x y = true ↔ (x < y)%Q.
Proof.
  unfold Qltb. rewrite negb_true_iff, <- not_true_iff_false, Qle_bool_iff.
  split; [apply Qnot_le_lt | apply Qlt_not_le].
Qed.

Lemma Qltb_ge (x y : Q) : Qltb x y = false ↔ (y <= x)%Q.
Proof. unfold Qltb. rewrite negb_false_iff. apply Qle_bool_iff. Qed.

Lemma Qnat_le (a b : nat) : a ≤ b → (Qnat a <= Qnat b)%Q.
Proof. intros H. unfold Qnat. rewrite <- Zle_Qle. lia. Qed.

Lemma Qnat_lt (a b : nat) : a < b → (Qnat a < Qnat b)%Q.
Proof. intros H. unfold Qnat. rewrite <- Zlt_Qlt. lia. Qed.

Lemma Qnat_double (M : nat) : (Qnat (2 * M) == 2 * Qnat M)%Q.
Proof. unfold Qnat. rewrite Nat2Z.inj_mul, inject_Z_mult. reflexivity. Qed.

Lemma count_if_app {A} (f : A → bool) (l1 l2 : list A) :
  count_if f (l1 ++ l2) = count_if f l1 + count_if f l2.
Proof. induction l1 as [|a l1 IH]; simpl; [done | rewrite IH; lia]. Qed.

Lemma count_if_fmap {A B} (f : B → bool) (g : A → B) (l : list A) :
  count_if f (g <$> l) = count_if (f ∘ g) l.
Proof. induction l as [|a l IH]; csimpl; [done | by rewrite IH]. Qed.

Lemma count_if_ext_in {A} (f g : A → bool) (l : list A) :
  (∀ a, a ∈ l → f a = g a) → count_if f l = count_if g l.
Proof.
  induction l as [|a l IH]; intros H; simpl; [done |].
  rewrite (H a) by left. rewrite IH; [done |]. intros b Hb. apply H. by right.
Qed.

Lemma count_if_ltb_seq (m n : nat) :
  count_if (λ k, k <? m) (seq 0 n) = m `min` n.
Proof.
  induction n as [|n IH]; [simpl; lia |].
  rewrite seq_S, count_if_app, IH. simpl.
  destruct (Nat.ltb_spec n m); lia.
Qed.

(** ** Construction *)

Lemma init_schedule_linear : init_schedule (ScheduleName "linear") = inr LinearSchedule.
Proof. reflexivity. Qed.

Lemma init_schedule_cosine : init_schedule (ScheduleName "cosine") = inr CosineSchedule.
Proof. reflexivity. Qed.

(** Construction succeeds on the two names and on nothing else. *)
Lemma init_schedule_succeeds_iff (schedule : schedule_arg) :
  (∃ fn, init_schedule schedule = inr fn) ↔
  schedule = ScheduleName "linear" ∨ schedule = ScheduleName "cosine".
Proof.
  split.
  - intros [fn H]. unfold init_schedule in H.
    destruct schedule as [name| |]; simpl in H; try discriminate.
    repeat case_bool_decide; subst; auto; discriminate.
  - intros [-> | ->]; eauto using init_schedule_linear, init_schedule_cosine.
Qed.

(** C1, evaluated on a callable: a callable [schedule] is bound to
    [schedule_fn] by the first [if] and then falls into the [else] of the
    second chain, so construction raises [ValueError] for every callable. *)
Theorem init_schedule_callable_raises (f : Q → Q) :
  init_schedule (ScheduleCallable f)
  = inl (ValueError_invalid_schedule (ScheduleCallable f)).
Proof. reflexivity. Qed.

(** ** The coin-flip gates *)

Lemma coin_flip_lt (r : Q) : coin_flip r = true ↔ (r < 1 # 2)%Q.
Proof. unfold coin_flip, sample_prob. apply Qltb_lt. Qed.

Lemma coin_flip_grid (M k : nat) :
  0 < M → coin_flip (Qnat k / Qnat (2 * M)) = (k <? M).
Proof.
  intros HM. unfold coin_flip, sample_prob.
  assert (H0 : (0 < Qnat (2 * M))%Q) by (apply (Qnat_lt 0); lia).
  destruct (Nat.ltb_spec k M) as [Hk|Hk].
  - apply Qltb_lt. apply Qlt_shift_div_r; [done |].
    rewrite Qnat_double. apply Qnat_lt in Hk. lra.
  - apply Qltb_ge. apply Qle_shift_div_l; [done |].
    rewrite Qnat_double. apply Qnat_le in Hk. lra.
Qed.

Lemma frequency_coin_flip (M : nat) :
  0 < M → (frequency (2 * M) coin_flip == 1 # 2)%Q.
Proof.
  intros HM. unfold frequency, grid.
  rewrite count_if_fmap.
  rewrite (count_if_ext_in _ (λ k, k <? M)).
  2:{ intros k _. simpl. by apply coin_flip_grid. }
  rewrite count_if_ltb_seq, Nat.min_l by lia.
  rewrite Qnat_double.
  assert (H0 : (0 < Qnat M)%Q) by (by apply (Qnat_lt 0)).
  field. lra.
Qed.

Lemma no_replace_gate_positive (p : Q) :
  (0 < p)%Q → no_replace_gate p = coin_flip.
Proof.
  intros Hp. unfold no_replace_gate.
  apply Qltb_lt in Hp. by rewrite Hp.
Qed.

Lemma random_token_gate_positive (p : Q) :
  (0 < p)%Q → random_token_gate p = coin_flip.
Proof.
  intros Hp. unfold random_token_gate.
  apply Qltb_lt in Hp. by rewrite Hp.
Qed.

(** C3 as stated fails: with [no_replace_prob = 0.15] the gate of the
    no-replace step fires on half of the draws, not on 15 in 100. *)
Lemma no_replace_gate_frequency_is_not_prob :
  ¬ (frequency 100 (no_replace_gate (15 # 100)) == 15 # 100)%Q.
Proof. unfold Qeq. vm_compute. discriminate. Qed.

Lemma no_replace_gate_iff (p r : Q) :
  no_replace_gate p r = true ↔ (0 < p)%Q ∧ (r < 1 # 2)%Q.
Proof.
  unfold no_replace_gate. by rewrite andb_true_iff, Qltb_lt, coin_flip_lt.
Qed.

Lemma random_token_gate_iff (p r : Q) :
  random_token_gate p r = true ↔ (0 < p)%Q ∧ (r < 1 # 2)%Q.
Proof.
  unfold random_token_gate. by rewrite andb_true_iff, Qltb_lt, coin_flip_lt.
Qed.

Lemma count_coin_flip_grid (M : nat) :
  0 < M → count_if coin_flip (grid (2 * M)) = M.
Proof.
  intros HM. unfold grid. rewrite count_if_fmap.
  rewrite (count_if_ext_in _ (λ k, k <? M)).
  2:{ intros k _. simpl. by apply coin_flip_grid. }
  rewrite count_if_ltb_seq. lia.
Qed.

Lemma count_if_pairs {A B} (f : A → bool) (g : B → bool) (l1 : list A)
    (l2 : list B) :
  count_if (λ p : A * B, f p.1 && g p.2) (list_prod l1 l2)
  = count_if f l1 * count_if g l2.
Proof.
  induction l1 as [|a l1 IH]; simpl; [done |].
  rewrite count_if_app, IH.
  assert (Hrow : count_if (λ p : A * B, f p.1 && g p.2)
                   (map (λ y, (a, y)) l2)
                 = (if f a then 1 else 0) * count_if g l2).
  { clear IH. induction l2 as [|y l2 IH2]; simpl; [lia |].
    rewrite IH2. destruct (f a), (g y); simpl; lia. }
  rewrite Hrow. destruct (f a); simpl; lia.
Qed.

Lemma frequency2_coin_flips (M : nat) :
  0 < M →
  (frequency2 (2 * M) (λ r1 r2, coin_flip r1 && coin_flip r2) == 1 # 4)%Q.
Proof.
  intros HM. unfold frequency2.
  rewrite (count_if_pairs coin_flip coin_flip).
  rewrite count_coin_flip_grid by done.
  unfold Qnat. rewrite !Nat2Z.inj_mul, !inject_Z_mult.
  assert (H0 : (0 < inject_Z (Z.of_nat M))%Q).
  { change 0%Q with (inject_Z 0). rewrite <- Zlt_Qlt. lia. }
  change (inject_Z (Z.of_nat 2)) with 2%Q.
  field. lra.
Qed.

(** ** get_mask_subset_prob *)

Lemma masked_fill_row_lookup {A} (t : list A) (mask : list bool) (v y : A)
    (j : nat) :
  masked_fill_row t mask v !! j = Some y ↔
  ∃ x (m : bool),
    t !! j = Some x ∧ mask !! j = Some m ∧ y = (if m then v else x).
Proof.
  unfold masked_fill_row. rewrite lookup_zip_with_Some.
  split.
  - intros (x & m & -> & Hx & Hm). by exists x, m.
  - intros (x & m & Hx & Hm & ->). by exists x, m.
Qed.

Lemma not_row_lookup (mask : list bool) (j : nat) :
  not_row mask !! j = negb <$> mask !! j.
Proof. unfold not_row. apply list_lookup_fmap. Qed.

Lemma subset_of_randperm_le_mask randperm mask prob min_mask (j : nat) :
  subset_of_randperm randperm mask prob min_mask !! j = Some true →
  mask !! j = Some true.
Proof.
  unfold subset_of_randperm. intros H.
  apply masked_fill_row_lookup in H as (x & m & _ & Hm & Hy).
  rewrite not_row_lookup in Hm.
  destruct (mask !! j) as [[]|]; simplify_eq/=; done.
Qed.

(** C6: whatever the keys drawn, the probability and the minimum, every
    position selected by [get_mask_subset_prob] is true in the input mask. *)
Theorem get_mask_subset_prob_within_mask
    (keys : tensor Q) (mask : tensor bool) (prob min_mask : Q)
    (b j : nat) (row : list bool) :
  get_mask_subset_prob keys mask prob min_mask !! b = Some row →
  row !! j = Some true →
  ∃ mrow, mask !! b = Some mrow ∧ mrow !! j = Some true.
Proof.
  unfold get_mask_subset_prob. intros Hb Hj.
  apply lookup_zip_with_Some in Hb as (k & m & -> & _ & Hm).
  exists m. split; [done |].
  by eapply subset_of_randperm_le_mask.
Qed.

Lemma get_mask_subset_prob_within_mask_witness :
  get_mask_subset_prob [[3#10; 4#10; 9#10; 8#10; 1#10; 2#10]]%Q
    [[true; true; false; false; true; true]] (1#4) 0 !! 0
    = Some [true; false; false; false; true; true]
  ∧ ∃ mrow, [[true; true; false; false; true; true]] !! 0 = Some mrow
            ∧ mrow !! 4 = Some true.
Proof.
  split; [reflexivity |].
  apply (get_mask_subset_prob_within_mask
           [[3#10; 4#10; 9#10; 8#10; 1#10; 2#10]]%Q
           [[true; true; false; false; true; true]] (1#4) 0 0 4
           [true; false; false; false; true; true]); reflexivity.
Defined.

(** C7, evaluated on a failing input. The row has [E = 4] eligible
    positions and [p = 1/4], so the target is [round(E * p) = 1]; the keys
    of the eligible positions are [0.3, 0.4, 0.1, 0.2]. Three positions are
    selected, in either order of the two tied padding keys: the result of
    [argsort] lists indices by rank, and line 46 subtracts the padding
    count from it as if it listed the rank of every index. *)
Theorem get_mask_subset_prob_selects_three_of_target_one :
  let mask := [[true; true; false; false; true; true]] in
  let keys := [[3#10; 4#10; 9#10; 8#10; 1#10; 2#10]]%Q in
  sum_mask <$> mask = [4] ∧
  get_mask_subset_prob keys mask (1 # 4) 0
    = [[true; false; false; false; true; true]] ∧
  sum_mask <$> get_mask_subset_prob keys mask (1 # 4) 0 = [3] ∧
  argsort [3#10; 4#10; -1; -1; 1#10; 2#10]%Q = [2; 3; 4; 5; 0; 1] ∧
  sum_mask (subset_of_randperm [3; 2; 4; 5; 0; 1]
              [true; true; false; false; true; true] (1 # 4) 0) = 3.
Proof. repeat split; reflexivity. Qed.

(** ** forward *)

Lemma no_replace_branch_frame self d l :
  l_mask (no_replace_branch self d l) = l_mask l ∧
  l_labels (no_replace_branch self d l) = l_labels l ∧
  l_x (no_replace_branch self d l) = l_x l.
Proof. unfold no_replace_branch. by destruct (no_replace_gate _ _). Qed.

Lemma random_token_branch_frame self d l :
  l_mask (random_token_branch self d l) = l_mask l ∧
  l_labels (random_token_branch self d l) = l_labels l.
Proof. unfold random_token_branch. by destruct (random_token_gate _ _). Qed.

Lemma forward_loss_args self x d tr :
  forward self x d = Some tr →
  loss_mask tr = primary_mask self (max_seq_len self) d ∧
  labels tr = masked_select x (primary_mask self (max_seq_len self) d).
Proof.
  unfold forward. destruct (forallb _ x); [| done].
  intros [= <-]. simpl.
  destruct (random_token_branch_frame self d
    (no_replace_branch self d
       {| l_x := x; l_mask := primary_mask self (max_seq_len self) d;
          l_labels := masked_select x (primary_mask self (max_seq_len self) d);
          l_replace_mask_id_mask := primary_mask self (max_seq_len self) d;
          l_frac_seq_left := 1 |})) as [-> ->].
  destruct (no_replace_branch_frame self d
       {| l_x := x; l_mask := primary_mask self (max_seq_len self) d;
          l_labels := masked_select x (primary_mask self (max_seq_len self) d);
          l_replace_mask_id_mask := primary_mask self (max_seq_len self) d;
          l_frac_seq_left := 1 |}) as (-> & -> & _).
  done.
Qed.

(** C3, amended: in [forward], the no-replace step (lines 221-224, whose
    subset selection is handed [no_replace_prob]) runs exactly when
    [no_replace_prob > 0] and the draw of its coin flip is below one half,
    and the random-token step (lines 227-231, whose subset selection is
    handed [random_token_prob * frac_seq_left]) runs exactly when
    [random_token_prob > 0] and the draw of a second coin flip is below
    one half; a step that does not run changes nothing, and [forward]
    builds the input of the net from the locals left by the two steps. On
    the uniform grid of draws a gate with a positive configured
    probability fires with probability one half, whatever the configured
    value, and both fire together with probability one quarter. *)
Theorem forward_gates_fire_on_fair_coin (self : wrapper)
    (d : forward_draws) :
  (no_replace_runs self d = true ↔
   (0 < no_replace_prob self)%Q ∧ (flip_no_replace d < 1 # 2)%Q) ∧
  (random_token_runs self d = true ↔
   (0 < random_token_prob self)%Q ∧ (flip_random_token d < 1 # 2)%Q) ∧
  (∀ l, no_replace_branch self d l =
     if no_replace_runs self d then
       {| l_x := l_x l; l_mask := l_mask l; l_labels := l_labels l;
          l_replace_mask_id_mask :=
            and_not (l_replace_mask_id_mask l)
              (get_mask_subset_prob (no_replace_keys d) (l_mask l)
                 (no_replace_prob self) 0);
          l_frac_seq_left := (l_frac_seq_left l - no_replace_prob self)%Q |}
     else l) ∧
  (∀ l, random_token_branch self d l =
     if random_token_runs self d then
       let random_token_prob_mask :=
         get_mask_subset_prob (random_token_keys d)
           (l_replace_mask_id_mask l)
           (random_token_prob self * l_frac_seq_left l)%Q 0 in
       {| l_x := where_ random_token_prob_mask (random_tokens d) (l_x l);
          l_mask := l_mask l; l_labels := l_labels l;
          l_replace_mask_id_mask :=
            and_not (l_replace_mask_id_mask l) random_token_prob_mask;
          l_frac_seq_left := l_frac_seq_left l |}
     else l) ∧
  (∀ x tr, forward self x d = Some tr →
     let l0 := {| l_x := x; l_mask := loss_mask tr; l_labels := labels tr;
                  l_replace_mask_id_mask := loss_mask tr;
                  l_frac_seq_left := 1 |} in
     let l2 := random_token_branch self d (no_replace_branch self d l0) in
     masked tr
     = masked_fill (l_x l2) (l_replace_mask_id_mask l2) (mask_id self)) ∧
  (∀ M, 0 < M →
     ((0 < no_replace_prob self)%Q →
      (frequency (2 * M)
         (λ r, no_replace_runs self (with_flips d r (flip_random_token d)))
       == 1 # 2)%Q) ∧
     ((0 < random_token_prob self)%Q →
      (frequency (2 * M)
         (λ r, random_token_runs self (with_flips d (flip_no_replace d) r))
       == 1 # 2)%Q) ∧
     ((0 < no_replace_prob self)%Q → (0 < random_token_prob self)%Q →
      (frequency2 (2 * M)
         (λ r1 r2, no_replace_runs self (with_flips d r1 r2)
                   && random_token_runs self (with_flips d r1 r2))
       == 1 # 4)%Q)).
Proof.
  split_and!.
  - apply no_replace_gate_iff.
  - apply random_token_gate_iff.
  - intros l. reflexivity.
  - intros l. reflexivity.
  - intros x tr H.
    destruct (forward_loss_args _ _ _ _ H) as [Hm Hl].
    unfold forward in H. destruct (forallb _ x); [| done].
    injection H as <-. simpl in *. by rewrite Hm, Hl.
  - intros M HM. split_and!.
    + intros Hp. unfold no_replace_runs. simpl.
      rewrite no_replace_gate_positive by done.
      by apply frequency_coin_flip.
    + intros Hp. unfold random_token_runs. simpl.
      rewrite random_token_gate_positive by done.
      by apply frequency_coin_flip.
    + intros Hp1 Hp2. unfold no_replace_runs, random_token_runs. simpl.
      rewrite no_replace_gate_positive, random_token_gate_positive by done.
      by apply frequency2_coin_flips.
Qed.

Lemma forward_gates_fire_on_fair_coin_witness :
  (frequency 100
     (λ r, no_replace_runs example_wrapper
             (with_flips example_draws r (flip_random_token example_draws)))
   == 1 # 2)%Q ∧
  (frequency 100
     (λ r, random_token_runs example_wrapper
             (with_flips example_draws (flip_no_replace example_draws) r))
   == 1 # 2)%Q ∧
  (frequency2 100
     (λ r1 r2, no_replace_runs example_wrapper (with_flips example_draws r1 r2)
               && random_token_runs example_wrapper
                    (with_flips example_draws r1 r2))
   == 1 # 4)%Q.
Proof.
  destruct (proj2 (proj2 (proj2 (proj2 (proj2
              (forward_gates_fire_on_fair_coin example_wrapper
                 example_draws))))) 50) as (H1 & H2 & H3); [lia |].
  split; [apply H1; reflexivity |].
  split; [apply H2; reflexivity | apply H3; reflexivity].
Defined.

(** On the example the primary mask has three positions and the labels are
    the original tokens there, although both optional branches fire. *)
Example forward_example :
  (λ tr, (loss_mask tr, labels tr, masked tr))
    <$> forward example_wrapper example_x example_draws
  = Some ([[true; false; false; true; false; true]], [11; 14; 16]%Z,
          [[11; 12; 13; 24; 15; 16]]%Z).
Proof. vm_compute. reflexivity. Qed.


(** ** Sorting, [topk] and [scatter] *)

Lemma insert_by_perm precedes x l : insert_by precedes x l ≡ₚ x :: l.
Proof.
  induction l as [|y l IH]; simpl; [done |].
  destruct (precedes _ _); [| done].
  rewrite IH. apply Permutation_swap.
Qed.

Lemma sort_by_perm precedes l : sort_by precedes l ≡ₚ l.
Proof.
  induction l as [|x l IH]; simpl; [done |].
  rewrite insert_by_perm. by f_equiv.
Qed.

Lemma enumerate_fst {A} (l : list A) : (enumerate l).*1 = seq 0 (length l).
Proof. unfold enumerate. apply fst_zip. by rewrite length_seq. Qed.

Lemma enumerate_snd {A} (l : list A) : (enumerate l).*2 = l.
Proof. unfold enumerate. apply snd_zip. by rewrite length_seq. Qed.

Lemma enumerate_lookup {A} (l : list A) (i : nat) (a : A) :
  (i, a) ∈ enumerate l ↔ l !! i = Some a.
Proof.
  unfold enumerate. rewrite list_elem_of_lookup. split.
  - intros [k Hk]. apply lookup_zip_with_Some in Hk as (x & y & [= -> ->] & Hx & Hy).
    apply lookup_seq in Hx as [-> _]. done.
  - intros H. exists i. apply lookup_zip_with_Some. exists i, a.
    split; [done |]. split; [| done].
    apply lookup_seq. split; [done |]. by eapply lookup_lt_Some.
Qed.

Lemma sort_by_indices precedes (l : list Q) :
  (sort_by precedes (enumerate l)).*1 ≡ₚ seq 0 (length l).
Proof. by rewrite sort_by_perm, enumerate_fst. Qed.

Lemma count_if_perm {A} (f : A → bool) (l k : list A) :
  l ≡ₚ k → count_if f l = count_if f k.
Proof. induction 1; simpl; lia. Qed.

Lemma topk_row_Some scores k idxs :
  topk_row scores k = Some idxs →
  (0 ≤ k ≤ Z.of_nat (length scores))%Z ∧
  idxs = take (Z.to_nat k) (sort_desc scores).*1.
Proof.
  unfold topk_row. intros H.
  destruct (_ || _)%bool eqn:E; [done |].
  apply orb_false_iff in E as [E1 E2].
  apply Z.ltb_ge in E1, E2. by simplify_eq.
Qed.

Lemma topk_row_is_Some scores k :
  (0 ≤ k ≤ Z.of_nat (length scores))%Z → is_Some (topk_row scores k).
Proof.
  intros [H1 H2]. unfold topk_row.
  apply Z.ltb_ge in H1, H2. rewrite H1, H2. simpl. eauto.
Qed.

Lemma topk_row_spec scores k idxs :
  topk_row scores k = Some idxs →
  length idxs = Z.to_nat k ∧ NoDup idxs ∧ ∀ i, i ∈ idxs → i < length scores.
Proof.
  intros H. apply topk_row_Some in H as [Hk ->].
  pose proof (sort_by_indices (λ a b, Qltb b a) scores) as Hp.
  fold (sort_desc scores) in Hp.
  split; [| split].
  - rewrite length_take_le; [done |].
    rewrite Hp, length_seq. lia.
  - eapply sublist_NoDup; [| apply sublist_take].
    rewrite Hp. apply NoDup_seq.
  - intros i Hi. apply elem_of_take in Hi as (j & Hj & _).
    apply list_elem_of_lookup_2 in Hj. rewrite Hp in Hj.
    apply elem_of_seq in Hj. lia.
Qed.

Lemma length_scatter_row dst idxs : length (scatter_row dst idxs) = length dst.
Proof.
  unfold scatter_row. revert dst.
  induction idxs as [|i idxs IH]; intros dst; simpl; [done |].
  by rewrite IH, length_insert.
Qed.

Lemma scatter_row_lookup dst idxs (j : nat) :
  scatter_row dst idxs !! j = Some true ↔
  dst !! j = Some true ∨ (j ∈ idxs ∧ j < length dst).
Proof.
  unfold scatter_row. revert dst.
  induction idxs as [|i idxs IH]; intros dst; simpl.
  - split; [auto |]. intros [H | [H _]]; [done |]. by apply elem_of_nil in H.
  - rewrite IH, length_insert, list_lookup_insert.
    rewrite elem_of_cons. case_decide as Hd.
    + destruct Hd as [-> Hlt]. split; [intros _; right; auto |]. auto.
    + split.
      * intros [H | [H1 H2]]; auto.
      * intros [H | [[-> | H1] H2]]; auto. exfalso. apply Hd. auto.
Qed.

Lemma sum_mask_insert_true (l : list bool) (i : nat) :
  l !! i = Some false → sum_mask (<[i:=true]> l) = S (sum_mask l).
Proof.
  unfold sum_mask. revert i. induction l as [|b l IH]; intros [|i] H; simplify_eq/=.
  - done.
  - rewrite (IH i) by done. lia.
Qed.

Lemma sum_mask_scatter_row dst idxs :
  NoDup idxs → (∀ i, i ∈ idxs → dst !! i = Some false) →
  sum_mask (scatter_row dst idxs) = sum_mask dst + length idxs.
Proof.
  unfold scatter_row. revert dst.
  induction idxs as [|i idxs IH]; intros dst Hnd H; simpl; [lia |].
  apply NoDup_cons in Hnd as [Hi Hnd].
  rewrite IH; [| done |].
  - rewrite sum_mask_insert_true; [lia |]. apply H. left.
  - intros j Hj. rewrite list_lookup_insert_ne.
    + apply H. by right.
    + intros ->. done.
Qed.

Lemma sum_mask_zeros {A} (row : list A) : sum_mask ((λ _ : A, false) <$> row) = 0.
Proof. unfold sum_mask. induction row; csimpl; done. Qed.

(** ** The clamp of the primary mask *)

(** A row of the primary mask has at least one position: the count is
    clamped to at least 1 and the permutation holds the index 0. *)
Lemma primary_mask_row_nonempty (keys : list Q) (c : Q) :
  keys ≠ [] →
  1 ≤ sum_mask ((λ r, Qltb (Qnat r) (Qmax c 1)) <$> argsort keys).
Proof.
  intros Hne. unfold sum_mask, argsort.
  rewrite count_if_fmap.
  rewrite (count_if_perm _ _ _ (sort_by_indices Qltb keys)).
  destruct keys as [|q keys]; [done |]. simpl.
  assert (Qltb (Qnat 0) (Qmax c 1) = true) as ->; [| lia].
  apply Qltb_lt. unfold Qmax.
  destruct (Qle_bool c 1) eqn:E; [reflexivity |].
  apply not_true_iff_false in E. rewrite Qle_bool_iff in E.
  apply Qnot_le_lt in E. change (Qnat 0) with 0%Q. lra.
Qed.

Lemma insert_by_desc x l :
  StronglySorted desc l →
  StronglySorted desc (insert_by (λ a b, Qltb b a) x l).
Proof.
  induction 1 as [|y l Hs IH Hy]; simpl.
  - repeat constructor.
  - destruct (Qltb x.2 y.2) eqn:E.
    + constructor; [done |].
      rewrite insert_by_perm. constructor; [| done].
      apply Qltb_lt in E. unfold desc. lra.
    + apply Qltb_ge in E. constructor; [by constructor |].
      constructor; [done |].
      eapply Forall_impl; [exact Hy |].
      unfold desc. intros z Hz. lra.
Qed.

Lemma sort_desc_sorted scores : StronglySorted desc (sort_desc scores).
Proof.
  unfold sort_desc, sort_by.
  induction (enumerate scores) as [|x l IH]; simpl; [constructor |].
  by apply insert_by_desc.
Qed.

Lemma count_if_none {A} (f : A → bool) (l : list A) :
  Forall (λ a, f a = false) l → count_if f l = 0.
Proof. induction 1 as [|a l Ha _ IH]; simpl; [done | by rewrite Ha, IH]. Qed.

(** In a list sorted by descending score, the entries above a threshold
    come first. *)
Lemma sorted_desc_prefix_above (s : Q) (l : list (nat * Q)) :
  StronglySorted desc l →
  Forall (λ p, Qltb s p.2 = true) (take (count_if (λ p, Qltb s p.2) l) l).
Proof.
  induction 1 as [|a l Hs IH Ha]; simpl; [constructor |].
  destruct (Qltb s a.2) eqn:E; simpl.
  - by constructor.
  - rewrite count_if_none; [constructor |].
    eapply Forall_impl; [exact Ha |].
    intros z Hz. apply Qltb_ge in E. apply Qltb_ge. unfold desc in Hz. lra.
Qed.

Lemma count_if_masked_fill_above (s : Q) (scores : list Q) (mask : list bool) :
  length scores = length mask →
  Forall (λ q, (s < q)%Q) scores →
  count_if (Qltb s) (masked_fill_row scores (not_row mask) s) = sum_mask mask.
Proof.
  unfold sum_mask, masked_fill_row, not_row.
  revert mask. induction scores as [|q scores IH]; intros [|m mask] Hlen Hq;
    simplify_eq/=; [done |].
  apply Forall_cons in Hq as [Hq Hqs].
  rewrite IH by done. f_equal.
  destruct m; simpl.
  - apply Qltb_lt in Hq. by rewrite Hq.
  - assert (Qltb s s = false) as -> by (apply Qltb_ge; lra). done.
Qed.

(** Row of C9: the positions chosen by [topk] are masked ones as long as
    no more are asked for than are masked. *)
Lemma topk_row_within_mask (fm : Q) (scores : list Q) (mask : list bool)
    (k : Z) (idxs : list nat) :
  length scores = length mask →
  Forall (λ q, (- fm < q)%Q) scores →
  (k ≤ Z.of_nat (sum_mask mask))%Z →
  topk_row (masked_fill_row scores (not_row mask) (- fm)%Q) k = Some idxs →
  ∀ i, i ∈ idxs → mask !! i = Some true.
Proof.
  intros Hlen Hq Hk H i Hi.
  set (scores1 := masked_fill_row scores (not_row mask) (- fm)%Q) in *.
  apply topk_row_Some in H as [Hk0 ->].
  assert (Hc : count_if (λ p : nat * Q, Qltb (- fm) p.2) (sort_desc scores1)
               = sum_mask mask).
  { unfold sort_desc. rewrite (count_if_perm _ _ _ (sort_by_perm _ _)).
    change (λ p : nat * Q, Qltb (- fm) p.2) with (Qltb (- fm) ∘ (snd : nat * Q → Q)).
    rewrite <- count_if_fmap, enumerate_snd.
    by apply count_if_masked_fill_above. }
  pose proof (sorted_desc_prefix_above (- fm) _ (sort_desc_sorted scores1)) as Hp.
  rewrite Hc in Hp.
  apply (Forall_take _ (Z.to_nat k)) in Hp.
  rewrite take_take, Nat.min_l in Hp by lia.
  rewrite <- fmap_take in Hi.
  apply list_elem_of_fmap in Hi as ([i' q] & -> & Hiq). simpl.
  rewrite Forall_forall in Hp. pose proof (Hp _ Hiq) as Hgood. simpl in Hgood.
  apply elem_of_take in Hiq as (n & Hn & _).
  apply list_elem_of_lookup_2 in Hn.
  unfold sort_desc in Hn. rewrite sort_by_perm in Hn.
  apply enumerate_lookup in Hn.
  apply masked_fill_row_lookup in Hn as (x & m & _ & Hm & ->).
  rewrite not_row_lookup in Hm.
  destruct (mask !! i') as [[]|]; simplify_eq/=; [done |].
  apply Qltb_lt in Hgood. lra.
Qed.

(** ** The decoder: rounds and traces *)

(** ** Tensors: lookups and shapes *)

Lemma map3_lookup_Some {A B C D} (f : A → B → C → D) la lb lc (i : nat) d :
  map3 f la lb lc !! i = Some d ↔
  ∃ a b c, la !! i = Some a ∧ lb !! i = Some b ∧ lc !! i = Some c ∧
           d = f a b c.
Proof.
  revert lb lc i. induction la as [|a la IH]; intros [|b lb] [|c lc] i; simpl;
    try (split; [done | by intros (? & ? & ? & ? & ? & ? & ?)]).
  destruct i as [|i]; simpl.
  - split.
    + intros [= <-]. by exists a, b, c.
    + intros (? & ? & ? & [= <-] & [= <-] & [= <-] & ->). done.
  - apply IH.
Qed.

Lemma length_map3 {A B C D} (f : A → B → C → D) la lb lc (n : nat) :
  length la = n → length lb = n → length lc = n →
  length (map3 f la lb lc) = n.
Proof.
  revert lb lc n. induction la as [|a la IH]; intros [|b lb] [|c lc] n; simpl;
    try (intros; congruence).
  intros <- [=] [=]. f_equal. by apply IH.
Qed.

Lemma shape_lookup {A} (b n : nat) (t : tensor A) (i : nat) (row : list A) :
  shape b n t → t !! i = Some row → i < b ∧ length row = n.
Proof.
  intros [<- Hrows] Hi. split; [by eapply lookup_lt_Some |].
  rewrite Forall_lookup in Hrows. by eapply Hrows.
Qed.

Lemma shape_is_Some {A} (b n : nat) (t : tensor A) (i : nat) :
  shape b n t → i < b → ∃ row, t !! i = Some row ∧ length row = n.
Proof.
  intros Hs Hi. destruct (lookup_lt_is_Some_2 t i) as [row Hrow].
  { destruct Hs as [-> _]. done. }
  exists row. split; [done |]. by eapply shape_lookup.
Qed.

Lemma shape_intro {A} (b n : nat) (t : tensor A) :
  length t = b → (∀ i row, t !! i = Some row → length row = n) → shape b n t.
Proof. intros Hl Hr. split; [done |]. by apply Forall_lookup. Qed.

Lemma length_masked_fill_row {A} (t : list A) mask v (n : nat) :
  length t = n → length mask = n → length (masked_fill_row t mask v) = n.
Proof. intros <- H. unfold masked_fill_row. by rewrite length_zip_with_l_eq. Qed.

Lemma sum_mask_topk_scatter (scores : list Q) (k : Z) (idxs : list nat) :
  topk_row scores k = Some idxs →
  (0 ≤ k)%Z ∧
  sum_mask (scatter_row ((λ _ : Q, false) <$> scores) idxs) = Z.to_nat k.
Proof.
  intros H. pose proof (topk_row_Some _ _ _ H) as [Hk _].
  apply topk_row_spec in H as (Hlen & Hnd & Hin).
  split; [lia |].
  rewrite sum_mask_scatter_row, sum_mask_zeros; [lia | done |].
  intros i Hi. apply Hin in Hi.
  rewrite list_lookup_fmap.
  destruct (lookup_lt_is_Some_2 scores i Hi) as [q ->]. done.
Qed.

Lemma topk_lookup (scores : tensor Q) (k : Z) (idxs : tensor nat) (i : nat)
    (row : list Q) :
  topk scores k = Some idxs → scores !! i = Some row →
  ∃ idxs_r, idxs !! i = Some idxs_r ∧ topk_row row k = Some idxs_r.
Proof.
  unfold topk. intros H Hi. apply mapM_Some in H.
  destruct (Forall2_lookup_l _ _ _ _ _ H Hi) as (y & Hy & Ht). eauto.
Qed.

Lemma topk_is_Some (scores : tensor Q) (k : Z) (n : nat) :
  Forall (λ row, length row = n) scores → (0 ≤ k ≤ Z.of_nat n)%Z →
  is_Some (topk scores k).
Proof.
  intros Hs Hk. unfold topk.
  induction Hs as [|row scores Hrow _ [idxs IH]].
  - by exists [].
  - destruct (topk_row_is_Some row k) as [i Hi]; [by rewrite Hrow |].
    exists (i :: idxs). rewrite mapM_Some in IH |- *. by constructor.
Qed.

Lemma zeros_like_lookup {A} (t : tensor A) (i : nat) :
  zeros_like t !! i = (λ row : list A, (λ _ : A, false) <$> row) <$> t !! i.
Proof. unfold zeros_like. apply list_lookup_fmap. Qed.

Lemma not_lookup (mask : tensor bool) (i : nat) :
  not_ mask !! i = not_row <$> mask !! i.
Proof. unfold not_. apply list_lookup_fmap. Qed.

Section RoundView.
Context {World : Type}.
Variable net_sample :
  World → bool → Q → tensor Z → World * (tensor Z * tensor Q).
Variable finfo_max : Q.

Lemma round_view self T (st : gen_state) k s st' :
  round net_sample finfo_max self T st k s = Some st' →
  ∃ w ids scores idxs,
    net_sample (g_world st) (net_training self)
      (Qmax (T * (Qnat s / Qnat (steps self))) (1 # 1000)) (g_seq st)
      = (w, (ids, scores)) ∧
    topk (masked_fill scores (not_ (g_mask st)) (- finfo_max)%Q) k
      = Some idxs ∧
    g_world st' = w ∧
    g_mask st' =
      scatter (zeros_like
                 (masked_fill scores (not_ (g_mask st)) (- finfo_max)%Q))
        idxs ∧
    g_seq st' =
      masked_fill (where_ (g_mask st) ids (g_seq st)) (g_mask st')
        (mask_id self).
Proof.
  unfold round. intros H.
  destruct (net_sample _ _ _ _) as [w [ids scores]].
  destruct (topk _ k) as [idxs|] eqn:E; [| done].
  injection H as <-. by exists w, ids, scores, idxs.
Qed.

(** Row [i] of the mask at the end of a round. *)
Lemma round_mask_row self T (st : gen_state) k s st' (i : nat) mask_r' :
  round net_sample finfo_max self T st k s = Some st' →
  g_mask st' !! i = Some mask_r' →
  ∃ scores_r mask_r idxs_r,
    g_mask st !! i = Some mask_r ∧
    topk_row (masked_fill_row scores_r (not_row mask_r) (- finfo_max)%Q) k
      = Some idxs_r ∧
    mask_r' =
      scatter_row
        ((λ _ : Q, false)
           <$> masked_fill_row scores_r (not_row mask_r) (- finfo_max)%Q)
        idxs_r ∧
    ∃ w ids scores,
      net_sample (g_world st) (net_training self)
        (Qmax (T * (Qnat s / Qnat (steps self))) (1 # 1000)) (g_seq st)
        = (w, (ids, scores)) ∧ scores !! i = Some scores_r.
Proof.
  intros H Hi.
  apply round_view in H as (w & ids & scores & idxs & Hnet & Htop & _ & Hm & _).
  rewrite Hm in Hi. unfold scatter in Hi.
  apply lookup_zip_with_Some in Hi as (z & idxs_r & -> & Hz & Hidx).
  rewrite zeros_like_lookup in Hz.
  destruct (masked_fill _ _ _ !! i) as [s1|] eqn:Hs1; [| done].
  injection Hz as <-.
  destruct (topk_lookup _ _ _ _ _ Htop Hs1) as (idxs_r' & Hidx' & Htopr).
  rewrite Hidx in Hidx'. injection Hidx' as <-.
  unfold masked_fill in Hs1.
  apply lookup_zip_with_Some in Hs1 as (scores_r & nm & -> & Hsc & Hnm).
  rewrite not_lookup in Hnm.
  destruct (g_mask st !! i) as [mask_r|] eqn:Hmr; [| done].
  injection Hnm as <-.
  exists scores_r, mask_r, idxs_r. split; [done |]. split; [done |].
  split; [done |]. by exists w, ids, scores.
Qed.

(** Round of C2: the mask of every row has [k] true entries. *)
Lemma round_mask_count self T (st : gen_state) k s st' (row : list bool) :
  round net_sample finfo_max self T st k s = Some st' →
  row ∈ g_mask st' →
  (0 ≤ k)%Z ∧ Z.of_nat (sum_mask row) = k.
Proof.
  intros H Hrow. apply list_elem_of_lookup in Hrow as [i Hi].
  destruct (round_mask_row _ _ _ _ _ _ _ _ H Hi)
    as (scores_r & mask_r & idxs_r & _ & Htop & -> & _).
  apply sum_mask_topk_scatter in Htop as [Hk ->]. lia.
Qed.
End RoundView.

Lemma lookup2_Some {A} (t : tensor A) (i j : nat) (a : A) :
  lookup2 t i j = Some a ↔ ∃ row, t !! i = Some row ∧ row !! j = Some a.
Proof.
  unfold lookup2. destruct (t !! i) as [row|]; simpl.
  - split; [by exists row |]. by intros (? & [= <-] & ?).
  - split; [done |]. by intros (? & ? & ?).
Qed.

Lemma shape_masked_fill {A} (t : tensor A) mask v (b n : nat) :
  shape b n t → shape b n mask → shape b n (masked_fill t mask v).
Proof.
  intros Ht Hm. apply shape_intro.
  - unfold masked_fill. destruct Ht as [Ht _], Hm as [Hm _].
    rewrite length_zip_with_l_eq; congruence.
  - intros i row Hi. unfold masked_fill in Hi.
    apply lookup_zip_with_Some in Hi as (r & m & -> & Hr & Hmi).
    apply length_masked_fill_row.
    + by eapply shape_lookup.
    + by eapply shape_lookup.
Qed.

Lemma shape_not (mask : tensor bool) (b n : nat) :
  shape b n mask → shape b n (not_ mask).
Proof.
  intros Hm. apply shape_intro.
  - unfold not_. rewrite length_fmap. by destruct Hm.
  - intros i row Hi. rewrite not_lookup in Hi.
    destruct (mask !! i) as [r|] eqn:E; [| done]. injection Hi as <-.
    unfold not_row. rewrite length_fmap. by eapply shape_lookup.
Qed.

Lemma shape_where {A} cond (x y : tensor A) (b n : nat) :
  shape b n cond → shape b n x → shape b n y → shape b n (where_ cond x y).
Proof.
  intros Hc Hx Hy. apply shape_intro.
  - unfold where_. destruct Hc as [Hc _], Hx as [Hx _], Hy as [Hy _].
    by apply length_map3.
  - intros i row Hi. unfold where_ in Hi.
    apply map3_lookup_Some in Hi as (c & a & d & Hci & Hxi & Hyi & ->).
    unfold where_row. apply length_map3.
    + by apply (shape_lookup _ _ _ _ _ Hc Hci).
    + by apply (shape_lookup _ _ _ _ _ Hx Hxi).
    + by apply (shape_lookup _ _ _ _ _ Hy Hyi).
Qed.

Lemma shape_scatter_zeros (scores : tensor Q) (k : Z) idxs (b n : nat) :
  shape b n scores → topk scores k = Some idxs →
  shape b n (scatter (zeros_like scores) idxs).
Proof.
  intros Hs Ht. apply shape_intro.
  - unfold scatter, zeros_like. unfold topk in Ht. apply length_mapM in Ht.
    rewrite length_zip_with_l_eq; rewrite length_fmap; [by destruct Hs | done].
  - intros i row Hi. unfold scatter in Hi.
    apply lookup_zip_with_Some in Hi as (z & idx & -> & Hz & _).
    rewrite zeros_like_lookup in Hz.
    destruct (scores !! i) as [r|] eqn:E; [| done]. injection Hz as <-.
    rewrite length_scatter_row, length_fmap. by eapply shape_lookup.
Qed.

Section RoundRows.
Context {World : Type}.
Variable net_sample :
  World → bool → Q → tensor Z → World * (tensor Z * tensor Q).
Variable finfo_max : Q.
Variable self : wrapper.
Variable T : Q.

Hypothesis contract : net_contract net_sample (num_tokens self).

Lemma contract_at (st : @gen_state World) mode temp w ids scores b n :
  shape b n (g_seq st) →
  net_sample (g_world st) mode temp (g_seq st) = (w, (ids, scores)) →
  shape b n ids ∧ shape b n scores ∧
  Forall (Forall (λ v, (0 ≤ v < num_tokens self)%Z)) ids ∧
  Forall (Forall (λ q, (0 <= q <= 1)%Q)) scores.
Proof.
  intros Hs Hnet.
  pose proof (contract (g_world st) mode temp (g_seq st) b n Hs) as H.
  rewrite Hnet in H. exact H.
Qed.

Lemma round_shape b n st k s st' :
  state_shape b n st →
  round net_sample finfo_max self T st k s = Some st' →
  state_shape b n st'.
Proof.
  intros [Hseq Hmask] H.
  apply round_view in H as (w & ids & scores & idxs & Hnet & Htop & _ & Hm & Hs).
  destruct (contract_at _ _ _ _ _ _ _ _ Hseq Hnet) as (Hids & Hsc & _ & _).
  assert (Hm' : shape b n (g_mask st')).
  { rewrite Hm. eapply shape_scatter_zeros; [| done].
    apply shape_masked_fill; [done |]. by apply shape_not. }
  split; [| done].
  rewrite Hs. apply shape_masked_fill; [| done]. by apply shape_where.
Qed.

Lemma round_is_Some b n st k s :
  state_shape b n st → (0 ≤ k ≤ Z.of_nat n)%Z →
  is_Some (round net_sample finfo_max self T st k s).
Proof.
  intros [Hseq Hmask] Hk. unfold round.
  destruct (net_sample _ _ _ _) as [w [ids scores]] eqn:Hnet.
  destruct (contract_at _ _ _ _ _ _ _ _ Hseq Hnet) as (Hids & Hsc & _ & _).
  destruct (topk_is_Some
              (masked_fill scores (not_ (g_mask st)) (- finfo_max)%Q) k n)
    as [idxs ->]; [| done | eauto].
  apply (shape_masked_fill scores (not_ (g_mask st)) (- finfo_max)%Q b n);
    [done |]. by apply shape_not.
Qed.

(** What a round does to row [i]. *)
Lemma round_row b n st k s st' (i : nat) :
  state_shape b n st →
  round net_sample finfo_max self T st k s = Some st' →
  i < b →
  ∃ seq_r mask_r ids_r scores_r idxs_r,
    g_seq st !! i = Some seq_r ∧ g_mask st !! i = Some mask_r ∧
    length seq_r = n ∧ length mask_r = n ∧
    length ids_r = n ∧ length scores_r = n ∧
    Forall (λ v, (0 ≤ v < num_tokens self)%Z) ids_r ∧
    Forall (λ q, (0 <= q <= 1)%Q) scores_r ∧
    topk_row (masked_fill_row scores_r (not_row mask_r) (- finfo_max)%Q) k
      = Some idxs_r ∧
    let mask_r' :=
      scatter_row
        ((λ _ : Q, false)
           <$> masked_fill_row scores_r (not_row mask_r) (- finfo_max)%Q)
        idxs_r in
    g_mask st' !! i = Some mask_r' ∧
    g_seq st' !! i
      = Some (masked_fill_row (where_row mask_r ids_r seq_r) mask_r'
                (mask_id self)).
Proof.
  intros Hst H Hi.
  pose proof (round_shape _ _ _ _ _ _ Hst H) as [Hseq' Hmask'].
  destruct Hst as [Hseq Hmask].
  destruct (shape_is_Some _ _ _ _ Hmask' Hi) as (mask_r' & Hmr' & _).
  destruct (round_mask_row _ _ _ _ _ _ _ _ _ _ H Hmr')
    as (scores_r & mask_r & idxs_r & Hmr & Htop & -> & w & ids & scores
        & Hnet & Hsr).
  pose proof (round_view _ _ _ _ _ _ _ _ H)
    as (w2 & ids2 & scores2 & idxs & Hnet2 & _ & _ & _ & Hs).
  rewrite Hnet in Hnet2. injection Hnet2 as <- <- <-.
  destruct (contract_at _ _ _ _ _ _ _ _ Hseq Hnet) as (Hids & Hsc & Hv & Hr).
  destruct (shape_is_Some _ _ _ _ Hseq Hi) as (seq_r & Hsq & Hlsq).
  destruct (shape_is_Some _ _ _ _ Hids Hi) as (ids_r & Hir & Hlir).
  exists seq_r, mask_r, ids_r, scores_r, idxs_r.
  pose proof (shape_lookup _ _ _ _ _ Hmask Hmr) as [_ Hlm].
  pose proof (shape_lookup _ _ _ _ _ Hsc Hsr) as [_ Hls].
  rewrite Forall_lookup in Hv. rewrite Forall_lookup in Hr.
  cbv zeta. split_and!; try done.
  - by eapply Hv.
  - by eapply Hr.
  - rewrite Hs. unfold masked_fill. apply lookup_zip_with_Some.
    eexists _, _. split; [done |]. split; [| done].
    unfold where_. apply map3_lookup_Some. by exists mask_r, ids_r, seq_r.
Qed.
End RoundRows.

(** ** The plan of rounds *)

Lemma linspace01_lookup (steps i : nat) :
  i ≤ steps → linspace01 steps !! i = Some (Qnat i / Qnat steps)%Q.
Proof.
  intros Hi. unfold linspace01. rewrite list_lookup_fmap.
  rewrite (proj2 (lookup_seq 0 (steps + 1) i i)); [done |]. lia.
Qed.

Lemma length_all_mask_num_tokens self :
  length (all_mask_num_tokens self) = steps self.
Proof.
  unfold all_mask_num_tokens, linspace01.
  rewrite length_fmap, length_drop, length_fmap, length_seq. lia.
Qed.

Lemma all_mask_num_tokens_lookup self (i : nat) :
  i < steps self →
  all_mask_num_tokens self !! i
  = Some (Qtrunc (schedule_fn self (Qnat (S i) / Qnat (steps self))
                  * Qnat (max_seq_len self))).
Proof.
  intros Hi. unfold all_mask_num_tokens.
  rewrite list_lookup_fmap, lookup_drop.
  rewrite linspace01_lookup by lia. done.
Qed.

Lemma length_round_plan self : length (round_plan self) = steps self.
Proof.
  unfold round_plan.
  rewrite length_zip_with_l_eq; rewrite length_all_mask_num_tokens; [done |].
  by rewrite length_reverse, length_seq.
Qed.

Lemma round_plan_lookup self (i : nat) k s :
  round_plan self !! i = Some (k, s) →
  all_mask_num_tokens self !! i = Some k.
Proof.
  unfold round_plan. intros H.
  apply lookup_zip_with_Some in H as (x & y & [= -> ->] & Hx & _). done.
Qed.

Section Trace.
Context {World : Type}.
Variable net_sample :
  World → bool → Q → tensor Z → World * (tensor Z * tensor Q).
Variable finfo_max : Q.
Variable self : wrapper.
Variable T : Q.


Lemma prev_state_cons (st st1 : @gen_state World) tr (i : nat) :
  is_Some (tr !! i) →
  prev_state st (st1 :: tr) (S i) = prev_state st1 tr i.
Proof.
  intros [st' Hi]. destruct i as [|i]; simpl; [done |].
  destruct (tr !! i) eqn:E; [done |].
  apply lookup_ge_None in E. apply lookup_lt_Some in Hi. lia.
Qed.

Lemma rounds_lookup plan : ∀ st tr,
  rounds net_sample finfo_max self T st plan = Some tr →
  length tr = length plan ∧
  ∀ i st', tr !! i = Some st' →
    ∃ k s, plan !! i = Some (k, s) ∧
           round net_sample finfo_max self T (prev_state st tr i) k s
           = Some st'.
Proof.
  induction plan as [|[k s] plan IH]; intros st tr H; simpl in H.
  - injection H as <-. split; [done |]. intros i st' Hi. done.
  - destruct (round net_sample finfo_max self T st k s) as [st1|] eqn:E; [| done].
    destruct (rounds net_sample finfo_max self T st1 plan)
      as [tr'|] eqn:E'; [| done].
    injection H as <-. destruct (IH _ _ E') as [Hlen Hrounds].
    split; [simpl; by rewrite Hlen |].
    intros [|i] st' Hi; simpl in Hi.
    + injection Hi as <-. by exists k, s.
    + rewrite prev_state_cons by eauto. by apply Hrounds.
Qed.

(** An invariant of the rounds holds at the start and at the end of
    every round. *)
Lemma rounds_invariant (Inv : @gen_state World → Prop) plan st tr :
  rounds net_sample finfo_max self T st plan = Some tr →
  Inv st →
  (∀ st1 st2 k s, Inv st1 →
     round net_sample finfo_max self T st1 k s = Some st2 → Inv st2) →
  ∀ i st', tr !! i = Some st' → Inv (prev_state st tr i) ∧ Inv st'.
Proof.
  intros H H0 Hstep.
  destruct (rounds_lookup _ _ _ H) as [_ Hr].
  induction i as [|i IH]; intros st' Hi.
  - destruct (Hr _ _ Hi) as (k & s & _ & Hround). simpl in *.
    split; [done |]. by eapply Hstep.
  - destruct (Hr _ _ Hi) as (k & s & _ & Hround).
    destruct (lookup_lt_is_Some_2 tr i) as [sti Hsti].
    { apply lookup_lt_Some in Hi. lia. }
    destruct (IH _ Hsti) as [_ Hinv].
    simpl in *. rewrite Hsti in *. simpl in *.
    split; [done |]. by eapply Hstep.
Qed.

Hypothesis contract : net_contract net_sample (num_tokens self).

Lemma rounds_is_Some b n plan : ∀ st,
  state_shape b n st →
  Forall (λ p : Z * nat, (0 ≤ p.1 ≤ Z.of_nat n)%Z) plan →
  is_Some (rounds net_sample finfo_max self T st plan).
Proof.
  induction plan as [|[k s] plan IH]; intros st Hst Hplan; simpl.
  - eauto.
  - apply Forall_cons in Hplan as [Hk Hplan]. simpl in Hk.
    destruct (round_is_Some net_sample finfo_max self T contract b n st k s
                Hst Hk) as [st1 Hst1].
    rewrite Hst1.
    destruct (IH st1) as [tr ->]; [| done | by eexists].
    by eapply round_shape.
Qed.
End Trace.

(** ** Truncation and the sample times *)

Lemma Qtrunc_nonneg (q : Q) : (0 <= q)%Q → Qtrunc q = Qfloor q.
Proof. intros H. unfold Qtrunc. apply Qle_bool_iff in H. by rewrite H. Qed.

Lemma Qtrunc_neg (q : Q) : (q < 0)%Q → Qtrunc q = Qceiling q.
Proof.
  intros H. unfold Qtrunc. destruct (Qle_bool 0 q) eqn:E; [| done].
  apply Qle_bool_iff in E. lra.
Qed.

Lemma Qtrunc_le (q r : Q) : (q <= r)%Q → (Qtrunc q ≤ Qtrunc r)%Z.
Proof.
  intros H.
  destruct (Qlt_le_dec q 0) as [Hq|Hq], (Qlt_le_dec r 0) as [Hr|Hr].
  - rewrite !Qtrunc_neg by done. by apply Qceiling_resp_le.
  - rewrite Qtrunc_neg, Qtrunc_nonneg by done.
    transitivity 0%Z.
    + change 0%Z with (Qceiling 0). apply Qceiling_resp_le. lra.
    + change 0%Z with (Qfloor 0). by apply Qfloor_resp_le.
  - lra.
  - rewrite !Qtrunc_nonneg by done. by apply Qfloor_resp_le.
Qed.

Lemma Qtrunc_Qnat (n : nat) : Qtrunc (Qnat n) = Z.of_nat n.
Proof.
  rewrite Qtrunc_nonneg; [apply Qfloor_Z |].
  apply (Qnat_le 0). lia.
Qed.

Lemma Qtrunc_zero (q : Q) : (q == 0)%Q → Qtrunc q = 0%Z.
Proof.
  intros H.
  apply Z.le_antisymm.
  - change 0%Z with (Qtrunc 0). apply Qtrunc_le. lra.
  - change 0%Z with (Qtrunc 0). apply Qtrunc_le. lra.
Qed.

Lemma sample_time_range (steps i : nat) :
  i ≤ steps → (0 <= Qnat i / Qnat steps <= 1)%Q.
Proof.
  intros Hi. destruct steps as [|steps].
  - assert (i = 0) as -> by lia. vm_compute. split; discriminate.
  - assert (H0 : (0 < Qnat (S steps))%Q) by (apply (Qnat_lt 0); lia).
    split.
    + apply Qle_shift_div_l; [done |].
      assert (0 <= Qnat i)%Q by (apply (Qnat_le 0); lia). lra.
    + apply Qle_shift_div_r; [done |].
      apply Qnat_le in Hi. lra.
Qed.

Lemma sample_time_mono (steps i j : nat) :
  i ≤ j → (Qnat i / Qnat steps <= Qnat j / Qnat steps)%Q.
Proof.
  intros Hij. unfold Qdiv. apply Qmult_le_compat_r.
  - by apply Qnat_le.
  - apply Qinv_le_0_compat. apply (Qnat_le 0). lia.
Qed.

Lemma sample_time_last (steps : nat) :
  1 ≤ steps → (Qnat steps / Qnat steps == 1)%Q.
Proof.
  intros H. assert (H0 : (0 < Qnat steps)%Q) by (apply (Qnat_lt 0); lia).
  field. lra.
Qed.

(** The counts of a schedule with values in [0, 1] are within [0, n]. *)
Lemma count_range (f : Q → Q) (n : nat) (t : Q) :
  (0 <= f t <= 1)%Q →
  (0 ≤ Qtrunc (f t * Qnat n) ≤ Z.of_nat n)%Z.
Proof.
  intros [H0 H1].
  assert (Hn : (0 <= Qnat n)%Q) by (apply (Qnat_le 0); lia).
  split.
  - change 0%Z with (Qtrunc 0). apply Qtrunc_le. nra.
  - transitivity (Qtrunc (Qnat n)); [| by rewrite Qtrunc_Qnat].
    apply Qtrunc_le. nra.
Qed.

Lemma sum_mask_le_length (row : list bool) : sum_mask row ≤ length row.
Proof. unfold sum_mask. induction row as [|[] row IH]; simpl; lia. Qed.

Lemma sum_mask_replicate_true (n : nat) : sum_mask (replicate n true) = n.
Proof. unfold sum_mask. induction n as [|n IH]; simpl; [done | by rewrite IH]. Qed.

Lemma sum_mask_zero_lookup (row : list bool) (j : nat) (m : bool) :
  sum_mask row = 0 → row !! j = Some m → m = false.
Proof.
  unfold sum_mask. revert j.
  induction row as [|[] row IH]; intros [|j] H Hj; simplify_eq/=; [done |].
  by eapply IH.
Qed.

Lemma where_row_lookup {A} cond (x y : list A) (j : nat) (c : bool) a d :
  cond !! j = Some c → x !! j = Some a → y !! j = Some d →
  where_row cond x y !! j = Some (if c then a else d).
Proof.
  intros Hc Hx Hy. unfold where_row. apply map3_lookup_Some.
  by exists c, a, d.
Qed.

Section RoundFacts.
Context {World : Type}.
Variable net_sample :
  World → bool → Q → tensor Z → World * (tensor Z * tensor Q).
Variable finfo_max : Q.
Variable self : wrapper.
Variable T : Q.

Hypothesis contract : net_contract net_sample (num_tokens self).


(** Round of C8: a position unmasked at the start of the round and not
    chosen for masking keeps its token. *)
Lemma round_frame b n (st st' : @gen_state World) k s (i j : nat) :
  state_shape b n st →
  round net_sample finfo_max self T st k s = Some st' →
  lookup2 (g_mask st) i j = Some false →
  lookup2 (g_mask st') i j = Some false →
  lookup2 (g_seq st') i j = lookup2 (g_seq st) i j.
Proof.
  intros Hst H Hm Hm'.
  apply lookup2_Some in Hm as (mask_r0 & Hmr0 & Hmj).
  apply lookup2_Some in Hm' as (mask_r0' & Hmr0' & Hmj').
  assert (Hi : i < b).
  { destruct Hst as [_ [<- _]]. by eapply lookup_lt_Some. }
  destruct (round_row net_sample finfo_max self T contract b n st k s st' i
              Hst H Hi)
    as (seq_r & mask_r & ids_r & scores_r & idxs_r & Hsq & Hmr & Hlsq & Hlm
        & Hli & Hls & _ & _ & _ & Hmr' & Hsq').
  cbv zeta in Hmr', Hsq'.
  rewrite Hmr in Hmr0. injection Hmr0 as <-.
  rewrite Hmr' in Hmr0'. injection Hmr0' as <-.
  unfold lookup2. rewrite Hsq, Hsq'. simpl.
  assert (Hj : j < n) by (rewrite <- Hlm; by eapply lookup_lt_Some).
  destruct (lookup_lt_is_Some_2 seq_r j) as [v Hv]; [lia |].
  destruct (lookup_lt_is_Some_2 ids_r j) as [a Ha]; [lia |].
  rewrite Hv. apply masked_fill_row_lookup.
  exists v, false. split; [| done].
  by rewrite (where_row_lookup _ _ _ _ _ _ _ Hmj Ha Hv).
Qed.

(** Round of C9: when no more positions are asked for than are masked,
    the positions chosen were masked at the start of the round. *)
Lemma round_mask_subset b n (st st' : @gen_state World) k s (i j : nat) :
  (0 < finfo_max)%Q →
  state_shape b n st →
  round net_sample finfo_max self T st k s = Some st' →
  (∀ row, row ∈ g_mask st → (k ≤ Z.of_nat (sum_mask row))%Z) →
  lookup2 (g_mask st') i j = Some true →
  lookup2 (g_mask st) i j = Some true.
Proof.
  intros Hfm Hst H Hk Hm'.
  apply lookup2_Some in Hm' as (mask_r0' & Hmr0' & Hmj').
  pose proof (round_shape net_sample finfo_max self T contract _ _ _ _ _ _
                Hst H) as Hst'.
  assert (Hi : i < b).
  { destruct Hst' as [_ [<- _]]. by eapply lookup_lt_Some. }
  destruct (round_row net_sample finfo_max self T contract b n st k s st' i
              Hst H Hi)
    as (seq_r & mask_r & ids_r & scores_r & idxs_r & Hsq & Hmr & Hlsq & Hlm
        & Hli & Hls & _ & Hrange & Htop & Hmr' & _).
  cbv zeta in Hmr'.
  rewrite Hmr' in Hmr0'. injection Hmr0' as <-.
  apply lookup2_Some. exists mask_r. split; [done |].
  apply scatter_row_lookup in Hmj' as [Hz | [Hin _]].
  { rewrite list_lookup_fmap in Hz.
    by destruct (masked_fill_row _ _ _ !! j). }
  eapply (topk_row_within_mask finfo_max scores_r mask_r k idxs_r); try done.
  - congruence.
  - eapply Forall_impl; [exact Hrange |]. intros q [Hq _]. simpl. lra.
  - apply Hk. by eapply list_elem_of_lookup_2.
Qed.

Lemma round_unmasked_in_vocab b n (st st' : @gen_state World) k s :
  state_shape b n st →
  round net_sample finfo_max self T st k s = Some st' →
  unmasked_in_vocab (num_tokens self) st →
  unmasked_in_vocab (num_tokens self) st'.
Proof.
  intros Hst H Hinv i j v Hm' Hv.
  apply lookup2_Some in Hm' as (mask_r0' & Hmr0' & Hmj').
  apply lookup2_Some in Hv as (seq_r0' & Hsq0' & Hvj).
  pose proof (round_shape net_sample finfo_max self T contract _ _ _ _ _ _
                Hst H) as Hst'.
  assert (Hi : i < b).
  { destruct Hst' as [_ [<- _]]. by eapply lookup_lt_Some. }
  destruct (round_row net_sample finfo_max self T contract b n st k s st' i
              Hst H Hi)
    as (seq_r & mask_r & ids_r & scores_r & idxs_r & Hsq & Hmr & Hlsq & Hlm
        & Hli & Hls & Hvocab & _ & _ & Hmr' & Hsq').
  cbv zeta in Hmr', Hsq'.
  rewrite Hmr' in Hmr0'. injection Hmr0' as <-.
  rewrite Hsq' in Hsq0'. injection Hsq0' as <-.
  apply masked_fill_row_lookup in Hvj as (x & m & Hx & Hm & ->).
  rewrite Hmj' in Hm. injection Hm as <-.
  unfold where_row in Hx.
  apply map3_lookup_Some in Hx as (c & a & d & Hc & Ha & Hd & ->).
  destruct c.
  - rewrite Forall_lookup in Hvocab. by eapply Hvocab.
  - apply (Hinv i j); apply lookup2_Some; eauto.
Qed.
End RoundFacts.

(** ** The decoder: the whole loop *)

Lemma shape_replicate {A} (b n : nat) (a : A) :
  shape b n (replicate b (replicate n a)).
Proof.
  apply shape_intro; [by rewrite length_replicate |].
  intros i row Hi. apply lookup_replicate in Hi as [-> _].
  by rewrite length_replicate.
Qed.

Lemma lookup2_replicate {A} (b n : nat) (a x : A) (i j : nat) :
  lookup2 (replicate b (replicate n a)) i j = Some x → x = a.
Proof.
  intros H. apply lookup2_Some in H as (row & Hrow & Hj).
  apply lookup_replicate in Hrow as [-> _].
  by apply lookup_replicate in Hj as [-> _].
Qed.

Section Decode.
Context {World : Type}.
Variable net_sample :
  World → bool → Q → tensor Z → World * (tensor Z * tensor Q).
Variable finfo_max : Q.
Variable self : wrapper.
Variable batch_size : nat.
Variable T : Q.
Variable w : World.


Lemma initial_state_shape :
  state_shape batch_size (max_seq_len self) (initial_state self batch_size w).
Proof. split; apply shape_replicate. Qed.

Lemma initial_state_unmasked_in_vocab :
  unmasked_in_vocab (num_tokens self) (initial_state self batch_size w).
Proof. intros i j v Hm _. by apply lookup2_replicate in Hm. Qed.

Lemma initial_state_mask_row (row : list bool) :
  row ∈ g_mask (initial_state self batch_size w) → sum_mask row = max_seq_len self.
Proof.
  intros H. simpl in H. apply elem_of_replicate in H as [-> _].
  apply sum_mask_replicate_true.
Qed.

(** The round that ends in the [i]-th state of the trace. *)
Lemma decode_round tr (i : nat) st' :
  decode net_sample finfo_max self batch_size T w = Some tr →
  tr !! i = Some st' →
  ∃ k s, all_mask_num_tokens self !! i = Some k ∧
         round net_sample finfo_max self T (prev_state (initial_state self batch_size w) tr i) k s
         = Some st'.
Proof.
  unfold decode. intros H Hi.
  destruct (rounds_lookup _ _ _ _ _ _ _ H) as [_ Hr].
  destruct (Hr _ _ Hi) as (k & s & Hplan & Hround).
  exists k, s. split; [| done]. by eapply round_plan_lookup.
Qed.

Lemma length_decode tr :
  decode net_sample finfo_max self batch_size T w = Some tr →
  length tr = steps self.
Proof.
  unfold decode. intros H.
  destruct (rounds_lookup _ _ _ _ _ _ _ H) as [-> _].
  apply length_round_plan.
Qed.

Lemma decode_mask_count tr (i : nat) st (row : list bool) :
  decode net_sample finfo_max self batch_size T w = Some tr →
  tr !! i = Some st → row ∈ g_mask st →
  all_mask_num_tokens self !! i = Some (Z.of_nat (sum_mask row)).
Proof.
  intros H Hi Hrow.
  destruct (decode_round _ _ _ H Hi) as (k & s & Hk & Hround).
  destruct (round_mask_count _ _ _ _ _ _ _ _ _ Hround Hrow) as [_ ->].
  done.
Qed.

Hypothesis contract : net_contract net_sample (num_tokens self).

Lemma decode_is_Some :
  Forall (λ k, (0 ≤ k ≤ Z.of_nat (max_seq_len self))%Z) (all_mask_num_tokens self) →
  is_Some (decode net_sample finfo_max self batch_size T w).
Proof.
  intros Hk. unfold decode.
  eapply rounds_is_Some; [done | apply initial_state_shape |].
  apply Forall_lookup. intros i [k s] Hi. simpl.
  apply round_plan_lookup in Hi.
  rewrite Forall_lookup in Hk. by eapply Hk.
Qed.

Lemma decode_shape tr (i : nat) st' :
  decode net_sample finfo_max self batch_size T w = Some tr →
  tr !! i = Some st' →
  state_shape batch_size (max_seq_len self) (prev_state (initial_state self batch_size w) tr i) ∧
  state_shape batch_size (max_seq_len self) st'.
Proof.
  unfold decode. intros H Hi.
  eapply (rounds_invariant net_sample finfo_max self T
            (state_shape batch_size (max_seq_len self))); try done.
  - apply initial_state_shape.
  - intros st1 st2 k s Hst1 Hround. by eapply round_shape.
Qed.

Lemma decode_unmasked_in_vocab tr (i : nat) st' :
  decode net_sample finfo_max self batch_size T w = Some tr →
  tr !! i = Some st' →
  unmasked_in_vocab (num_tokens self) st'.
Proof.
  unfold decode. intros H Hi.
  apply (rounds_invariant net_sample finfo_max self T
            (λ st, state_shape batch_size (max_seq_len self) st ∧
                   unmasked_in_vocab (num_tokens self) st)
            _ _ _ H) with (i := i); try done.
  - split; [apply initial_state_shape | apply initial_state_unmasked_in_vocab].
  - intros st1 st2 k s [Hst1 Hv1] Hround. split.
    + by eapply round_shape.
    + by eapply round_unmasked_in_vocab.
Qed.
End Decode.

(** ** The example collaborator *)

Lemma example_net_contract : net_contract example_net 100.
Proof.
  intros w mode temp s b n [Hlen Hrows]. simpl.
  split_and!.
  - apply shape_intro; [by rewrite length_fmap |].
    intros i row Hi. rewrite list_lookup_fmap in Hi.
    destruct (s !! i) as [r|] eqn:E; [| done]. injection Hi as <-.
    rewrite length_fmap, length_seq.
    rewrite Forall_lookup in Hrows. by eapply Hrows.
  - apply shape_intro; [by rewrite length_fmap |].
    intros i row Hi. rewrite list_lookup_fmap in Hi.
    destruct (s !! i) as [r|] eqn:E; [| done]. injection Hi as <-.
    rewrite length_fmap, length_seq.
    rewrite Forall_lookup in Hrows. by eapply Hrows.
  - apply Forall_fmap, Forall_true. intros row. simpl.
    apply Forall_fmap, Forall_true. intros j. simpl.
    pose proof (Nat.mod_upper_bound (j + w) 7). lia.
  - apply Forall_fmap, Forall_true. intros row. simpl.
    apply Forall_fmap, Forall_true. intros j. simpl.
    unfold Qle. simpl. lia.
Qed.

(** ** generate *)

Lemma length_round_plan_of (self : wrapper) (counts : list Z) :
  length counts ≤ steps self →
  length (round_plan_of self counts) = length counts.
Proof.
  intros H. unfold round_plan_of.
  rewrite length_zip_with, length_reverse, length_seq. lia.
Qed.

Lemma round_plan_of_lookup (self : wrapper) (counts : list Z) (i : nat) k s :
  round_plan_of self counts !! i = Some (k, s) → counts !! i = Some k.
Proof.
  unfold round_plan_of. intros H.
  apply lookup_zip_with_Some in H as (x & y & [= -> ->] & Hx & _). done.
Qed.

(** The loop of [generate] is the loop for the counts of line 142. *)
Lemma decode_as_decode_of {World : Type}
    (net_sample : World → bool → Q → tensor Z → World * (tensor Z * tensor Q))
    (finfo_max : Q) (self : wrapper) (batch_size : nat) (T : Q) (w : World) :
  decode net_sample finfo_max self batch_size T w
  = decode_of net_sample finfo_max self (all_mask_num_tokens self)
      batch_size T w.
Proof. reflexivity. Qed.

(** C2: in [generate], for every list [counts] that line 142 can produce
    (the float32 product of the schedule and the length, truncated), and
    for the first rounds of the loop on each of its prefixes: whenever
    these rounds complete there is one state per count, and at the end of
    round [i] the mask has [batch_size] rows of length [max_seq_len], each
    with exactly [counts[i]] true entries; and the rounds do complete when
    every count lies between 0 and the sequence length. The collaborators
    keep their contract. *)
Theorem generate_mask_count_every_round {World : Type}
    (net_sample : World → bool → Q → tensor Z → World * (tensor Z * tensor Q))
    (finfo_max : Q) (self : wrapper) (batch_size : option nat) (T : Q)
    (w : World) (counts : list Z) :
  net_contract net_sample (num_tokens self) →
  length counts ≤ steps self →
  (∀ tr,
     decode_of net_sample finfo_max (eval self) counts
       (default 1 batch_size) T w = Some tr →
     length tr = length counts ∧
     ∀ i st, tr !! i = Some st →
       ∃ k, counts !! i = Some k ∧
         shape (default 1 batch_size) (max_seq_len self) (g_mask st) ∧
         ∀ r, r < default 1 batch_size →
           ∃ row, g_mask st !! r = Some row ∧
                  length row = max_seq_len self ∧
                  Z.of_nat (sum_mask row) = k) ∧
  (Forall (λ k, (0 ≤ k ≤ Z.of_nat (max_seq_len self))%Z) counts →
   is_Some
     (decode_of net_sample finfo_max (eval self) counts
        (default 1 batch_size) T w)).
Proof.
  intros Hc Hlen. split.
  - intros tr H. unfold decode_of in H.
    destruct (rounds_lookup _ _ _ _ _ _ _ H) as [Hl Hr].
    split.
    { rewrite Hl. by apply (length_round_plan_of (eval self)). }
    intros i st Hi.
    destruct (Hr _ _ Hi) as (k & s & Hplan & Hround).
    apply round_plan_of_lookup in Hplan.
    exists k. split; [done |].
    destruct (rounds_invariant net_sample finfo_max (eval self) T
                (state_shape (default 1 batch_size) (max_seq_len self))
                _ _ _ H) with (i := i) (st' := st) as [_ [_ Hmask]].
    + apply (initial_state_shape (eval self)).
    + intros st1 st2 k' s' Hst1 Hround'.
      by apply (round_shape net_sample finfo_max (eval self) T Hc _ _ _ _ _
                  _ Hst1 Hround').
    + done.
    + split; [done |].
      intros r Hlt.
      destruct (shape_is_Some _ _ _ _ Hmask Hlt) as (row & Hrow & Hlrow).
      exists row. split; [done |]. split; [done |].
      apply (round_mask_count _ _ _ _ _ _ _ _ row Hround).
      by eapply list_elem_of_lookup_2.
  - intros Hk. unfold decode_of.
    eapply (rounds_is_Some net_sample finfo_max (eval self) T Hc).
    + apply (initial_state_shape (eval self)).
    + apply Forall_lookup. intros i [k s] Hi. simpl.
      apply round_plan_of_lookup in Hi.
      rewrite Forall_lookup in Hk. by eapply Hk.
Qed.

Lemma generate_mask_count_every_round_witness :
  ∃ tr,
    decode_of example_net float32_max (eval example_wrapper_thirds)
      float32_counts_thirds 2 1 0 = Some tr ∧
    length tr = 3 ∧
    ∀ i st, tr !! i = Some st →
      ∃ k, float32_counts_thirds !! i = Some k ∧
        shape 2 3 (g_mask st) ∧
        ∀ r, r < 2 →
          ∃ row, g_mask st !! r = Some row ∧ length row = 3 ∧
                 Z.of_nat (sum_mask row) = k.
Proof.
  pose proof (generate_mask_count_every_round example_net float32_max
                example_wrapper_thirds (Some 2) 1 0 float32_counts_thirds
                example_net_contract (le_n 3)) as [Hcount Hret].
  destruct Hret as [tr Htr].
  - vm_compute. repeat constructor; discriminate.
  - exists tr. split; [exact Htr |]. apply (Hcount tr Htr).
Defined.

(** ** The linear schedule *)

Lemma linear_counts_range (self : wrapper) :
  schedule_fn self = linear_schedule →
  Forall (λ k, (0 ≤ k ≤ Z.of_nat (max_seq_len self))%Z)
    (all_mask_num_tokens self).
Proof.
  intros Hlin. apply Forall_lookup. intros i k Hi.
  assert (Hlt : i < steps self).
  { rewrite <- length_all_mask_num_tokens. by eapply lookup_lt_Some. }
  rewrite all_mask_num_tokens_lookup in Hi by done. injection Hi as <-.
  apply count_range. rewrite Hlin. unfold linear_schedule.
  pose proof (sample_time_range (steps self) (S i) Hlt) as Ht.
  lra.
Qed.

Lemma linear_last_count (self : wrapper) :
  schedule_fn self = linear_schedule → 1 ≤ steps self →
  all_mask_num_tokens self !! (steps self - 1) = Some 0%Z.
Proof.
  intros Hlin Hs. rewrite all_mask_num_tokens_lookup by lia.
  replace (S (steps self - 1)) with (steps self) by lia.
  f_equal. apply Qtrunc_zero. rewrite Hlin. unfold linear_schedule.
  rewrite sample_time_last by done. ring.
Qed.

Lemma last_is_lookup {A} (l : list A) : last l = l !! (length l - 1).
Proof. rewrite last_lookup. f_equal. lia. Qed.

Lemma elem_of_concat_lookup2 {A} (t : tensor A) (v : A) :
  v ∈ concat t → ∃ i j, lookup2 t i j = Some v.
Proof.
  intros H. apply list_elem_of_In, in_concat in H as (row & Hrow & Hv).
  apply list_elem_of_In, list_elem_of_lookup in Hrow as [i Hi].
  apply list_elem_of_In, list_elem_of_lookup in Hv as [j Hj].
  exists i, j. apply lookup2_Some. eauto.
Qed.

Section Linear.
Context {World : Type}.
Variable net_sample :
  World → bool → Q → tensor Z → World * (tensor Z * tensor Q).
Variable finfo_max : Q.
Variable self : wrapper.
Variable batch_size : nat.
Variable T : Q.
Variable w : World.

Hypothesis contract : net_contract net_sample (num_tokens self).
Hypothesis linear : schedule_fn self = linear_schedule.
Hypothesis steps_pos : 1 ≤ steps self.

(** With the linear schedule the loop ends, and in its last state every
    position holds a vocabulary id. *)
Lemma decode_linear_final :
  ∃ tr st,
    decode net_sample finfo_max self batch_size T w = Some tr ∧
    last tr = Some st ∧
    shape batch_size (max_seq_len self) (g_seq st) ∧
    ∀ i j v, lookup2 (g_seq st) i j = Some v →
             (0 ≤ v < num_tokens self)%Z.
Proof.
  destruct (decode_is_Some net_sample finfo_max self batch_size T w contract
              (linear_counts_range self linear)) as [tr Htr].
  pose proof (length_decode _ _ _ _ _ _ _ Htr) as Hlen.
  destruct (lookup_lt_is_Some_2 tr (steps self - 1)) as [st Hst]; [lia |].
  exists tr, st. split; [done |].
  split; [by rewrite last_is_lookup, Hlen |].
  destruct (decode_shape net_sample finfo_max self batch_size T w contract
              _ _ _ Htr Hst) as [_ [Hseq Hmask]].
  split; [done |].
  intros i j v Hv.
  apply (decode_unmasked_in_vocab net_sample finfo_max self batch_size T w
           contract _ _ _ Htr Hst i j v); [| done].
  apply lookup2_Some in Hv as (row & Hrow & Hj).
  destruct (shape_lookup _ _ _ _ _ Hseq Hrow) as [Hi Hlrow].
  destruct (shape_is_Some _ _ _ _ Hmask Hi) as (mrow & Hmrow & Hlm).
  destruct (lookup_lt_is_Some_2 mrow j) as [m Hm].
  { rewrite Hlm, <- Hlrow. by eapply lookup_lt_Some. }
  apply lookup2_Some. exists mrow. split; [done |].
  rewrite Hm. f_equal.
  eapply sum_mask_zero_lookup; [| done].
  pose proof (decode_mask_count _ _ _ _ _ _ _ _ _ mrow Htr Hst) as Hc.
  rewrite linear_last_count in Hc by done.
  assert (Hin : mrow ∈ g_mask st) by (by eapply list_elem_of_lookup_2).
  specialize (Hc Hin). injection Hc. lia.
Qed.
End Linear.

(** C5: with the linear schedule and [steps >= 1] the count of the last
    round is 0, [generate] returns, and when [mask_id] is not a vocabulary
    id the returned sequence holds no [mask_id]. *)
Theorem generate_linear_leaves_no_mask_token {World : Type}
    (net_sample : World → bool → Q → tensor Z → World * (tensor Z * tensor Q))
    (finfo_max : Q) (self : wrapper) (batch_size : option nat) (T : Q)
    (w : World) :
  schedule_fn self = linear_schedule →
  1 ≤ steps self →
  net_contract net_sample (num_tokens self) →
  ¬ (0 ≤ mask_id self < num_tokens self)%Z →
  last (all_mask_num_tokens self) = Some 0%Z ∧
  ∃ out,
    (generate net_sample finfo_max self batch_size T w).2 = Some out ∧
    mask_id self ∉ output_tokens out.
Proof.
  intros Hlin Hsteps Hc Hid. split.
  { rewrite last_is_lookup, length_all_mask_num_tokens.
    by apply linear_last_count. }
  destruct (decode_linear_final net_sample finfo_max (eval self)
              (default 1 batch_size) T w Hc Hlin Hsteps)
    as (tr & st & Htr & Hlast & Hshape & Hvocab).
  unfold generate. rewrite Htr, Hlast. simpl.
  assert (Hno : ∀ i j, lookup2 (g_seq st) i j ≠ Some (mask_id self)).
  { intros i j Hv. apply Hid. by apply (Hvocab i j). }
  destruct batch_size as [b|]; simpl.
  - eexists. split; [done |]. simpl. intros Hin.
    apply elem_of_concat_lookup2 in Hin as (i & j & Hv). by eapply Hno.
  - destruct Hshape as [Hlen _]. simpl in Hlen.
    destruct st as [sq mk w']. simpl in *.
    destruct sq as [|row [|row' rest]]; simplify_eq/=.
    eexists. split; [done |]. simpl. intros Hin.
    apply list_elem_of_lookup in Hin as [j Hj].
    by apply (Hno 0 j).
Qed.

Lemma generate_linear_leaves_no_mask_token_witness :
  last (all_mask_num_tokens example_wrapper) = Some 0%Z ∧
  ∃ out,
    (generate example_net float32_max example_wrapper None 1 0).2 = Some out ∧
    mask_id example_wrapper ∉ output_tokens out.
Proof.
  apply (generate_linear_leaves_no_mask_token example_net float32_max
           example_wrapper None 1 0).
  - reflexivity.
  - simpl. lia.
  - apply example_net_contract.
  - simpl. lia.
Defined.

(** C8: in [generate], a position that is unmasked at the start of a
    round and is not chosen for masking in it keeps its token through the
    round; hence a position that stays unmasked from round [i] to round
    [i'] holds at the end of round [i'] the token it held at the end of
    round [i]. *)
Theorem generate_unmasked_positions_keep_token {World : Type}
    (net_sample : World → bool → Q → tensor Z → World * (tensor Z * tensor Q))
    (finfo_max : Q) (self : wrapper) (batch_size : option nat) (T : Q)
    (w : World) (tr : list gen_state) :
  net_contract net_sample (num_tokens self) →
  decode net_sample finfo_max (eval self) (default 1 batch_size) T w
  = Some tr →
  let st0 := initial_state (eval self) (default 1 batch_size) w in
  (∀ i st' b j, tr !! i = Some st' →
     lookup2 (g_mask (prev_state st0 tr i)) b j = Some false →
     lookup2 (g_mask st') b j = Some false →
     lookup2 (g_seq st') b j = lookup2 (g_seq (prev_state st0 tr i)) b j) ∧
  (∀ i i' sti sti' b j, i ≤ i' →
     tr !! i = Some sti → tr !! i' = Some sti' →
     (∀ r st, i ≤ r ≤ i' → tr !! r = Some st →
              lookup2 (g_mask st) b j = Some false) →
     lookup2 (g_seq sti') b j = lookup2 (g_seq sti) b j).
Proof.
  intros Hc Htr st0.
  assert (Hstep : ∀ i st' b j, tr !! i = Some st' →
     lookup2 (g_mask (prev_state st0 tr i)) b j = Some false →
     lookup2 (g_mask st') b j = Some false →
     lookup2 (g_seq st') b j = lookup2 (g_seq (prev_state st0 tr i)) b j).
  { intros i st' b j Hi Hm Hm'.
    destruct (decode_round _ _ _ _ _ _ _ _ _ Htr Hi) as (k & s & _ & Hround).
    destruct (decode_shape net_sample finfo_max (eval self) _ T w Hc _ _ _
                Htr Hi) as [Hprev _].
    by apply (round_frame net_sample finfo_max (eval self) T Hc _ _ _ _ _ _
                b j Hprev Hround). }
  split; [exact Hstep |].
  intros i i' sti sti' b j Hle Hi. revert sti'.
  induction Hle as [|i' Hle IH]; intros sti' Hi' Hunmasked.
  - congruence.
  - destruct (lookup_lt_is_Some_2 tr i') as [stm Hstm].
    { apply lookup_lt_Some in Hi'. lia. }
    rewrite <- (IH stm Hstm).
    2:{ intros r st Hr. apply Hunmasked. lia. }
    pose proof (Hstep (S i') sti' b j Hi') as Hs.
    simpl in Hs. rewrite Hstm in Hs. simpl in Hs. apply Hs.
    + apply (Hunmasked i' stm); [lia | done].
    + apply (Hunmasked (S i') sti'); [lia | done].
Qed.

Lemma generate_unmasked_positions_keep_token_witness :
  decode example_net float32_max (eval example_wrapper) 2 1 0
  = Some example_trace ∧
  lookup2 (g_seq (default (initial_state example_wrapper 2 0)
                    (example_trace !! 3))) 0 1
  = lookup2 (g_seq (default (initial_state example_wrapper 2 0)
                      (example_trace !! 0))) 0 1.
Proof.
  assert (H : decode example_net float32_max (eval example_wrapper) 2 1 0
              = Some example_trace) by (vm_compute; reflexivity).
  split; [exact H |].
  apply (proj2 (generate_unmasked_positions_keep_token example_net
                  float32_max example_wrapper (Some 2) 1 0 example_trace
                  example_net_contract H) 0 3).
  - lia.
  - reflexivity.
  - reflexivity.
  - intros r st Hr Hst.
    destruct r as [|[|[|[|r]]]]; simpl in Hst; [| | | | lia];
      injection Hst as <-; reflexivity.
Defined.


(** C9: in [generate] with a non-increasing schedule, every position
    masked at the end of a round was masked at the start of that round. *)
Theorem generate_mask_only_shrinks {World : Type}
    (net_sample : World → bool → Q → tensor Z → World * (tensor Z * tensor Q))
    (finfo_max : Q) (self : wrapper) (batch_size : option nat) (T : Q)
    (w : World) (tr : list gen_state) :
  (0 < finfo_max)%Q →
  net_contract net_sample (num_tokens self) →
  (∀ t1 t2, (0 <= t1)%Q → (t1 <= t2)%Q → (t2 <= 1)%Q →
            (schedule_fn self t2 <= schedule_fn self t1)%Q) →
  decode net_sample finfo_max (eval self) (default 1 batch_size) T w
  = Some tr →
  let st0 := initial_state (eval self) (default 1 batch_size) w in
  ∀ i st' b j, tr !! i = Some st' →
    lookup2 (g_mask st') b j = Some true →
    lookup2 (g_mask (prev_state st0 tr i)) b j = Some true.
Proof.
  intros Hfm Hc Hmono Htr st0 i st' b j Hi Hm'.
  destruct (decode_round _ _ _ _ _ _ _ _ _ Htr Hi) as (k & s & Hk & Hround).
  destruct (decode_shape net_sample finfo_max (eval self) _ T w Hc _ _ _
              Htr Hi) as [Hprev Hst'].
  apply (round_mask_subset net_sample finfo_max (eval self) T Hc _ _ _ _ _ _
           b j Hfm Hprev Hround); [| done].
  intros row Hrow.
  assert (Hlt : i < steps self).
  { pose proof (length_decode _ _ _ _ _ _ _ Htr) as Hl. simpl in Hl.
    rewrite <- Hl. by eapply lookup_lt_Some. }
  destruct i as [|i]; simpl in Hrow |- *.
  - (* round 0: every position is masked *)
    apply elem_of_replicate in Hrow as [-> Hb].
    rewrite sum_mask_replicate_true.
    destruct Hst' as [_ Hmask'].
    destruct (shape_is_Some _ _ _ 0 Hmask') as (row' & Hrow' & Hlen');
      [lia |].
    apply list_elem_of_lookup_2 in Hrow'.
    destruct (round_mask_count _ _ _ _ _ _ _ _ _ Hround Hrow') as [_ <-].
    pose proof (sum_mask_le_length row'). simpl in *. lia.
  - destruct (lookup_lt_is_Some_2 tr i) as [stm Hstm]; [
      apply lookup_lt_Some in Hi; lia |].
    simpl in Hrow. rewrite Hstm in Hrow. simpl in Hrow.
    pose proof (decode_mask_count _ _ _ _ _ _ _ _ _ _ Htr Hstm Hrow) as Hcount.
    change (all_mask_num_tokens (eval self))
      with (all_mask_num_tokens self) in *.
    rewrite all_mask_num_tokens_lookup in Hcount by lia.
    rewrite all_mask_num_tokens_lookup in Hk by lia.
    injection Hcount as <-. injection Hk as <-.
    apply Qtrunc_le. apply Qmult_le_compat_r.
    + apply Hmono.
      * apply (sample_time_range (steps self) (S i)). lia.
      * apply sample_time_mono. lia.
      * apply (sample_time_range (steps self) (S (S i))). lia.
    + apply (Qnat_le 0). lia.
Qed.

Lemma generate_mask_only_shrinks_witness :
  decode example_net float32_max (eval example_wrapper) 2 1 0
  = Some example_trace ∧
  ∀ i st' b j, example_trace !! i = Some st' →
    lookup2 (g_mask st') b j = Some true →
    lookup2
      (g_mask (prev_state (initial_state (eval example_wrapper) 2 0)
                 example_trace i))
      b j = Some true.
Proof.
  assert (H : decode example_net float32_max (eval example_wrapper) 2 1 0
              = Some example_trace) by (vm_compute; reflexivity).
  split; [exact H |].
  apply (generate_mask_only_shrinks example_net float32_max example_wrapper
           (Some 2) 1 0).
  - reflexivity.
  - apply example_net_contract.
  - intros t1 t2 H0 H12 H1. simpl. unfold linear_schedule. lra.
  - exact H.
Defined.


(** ** The training flag *)

Lemma round_eval_mode {World : Type}
    (net_sample : World → bool → Q → tensor Z → World * (tensor Z * tensor Q))
    (finfo_max : Q) (self : wrapper) (T : Q) (st : gen_state) k s :
  net_training self = false →
  round net_sample finfo_max self T st k s
  = round (λ w _, net_sample w false) finfo_max self T st k s.
Proof. intros H. unfold round. by rewrite H. Qed.

Lemma rounds_eval_mode {World : Type}
    (net_sample : World → bool → Q → tensor Z → World * (tensor Z * tensor Q))
    (finfo_max : Q) (self : wrapper) (T : Q) plan : ∀ st : gen_state,
  net_training self = false →
  rounds net_sample finfo_max self T st plan
  = rounds (λ w _, net_sample w false) finfo_max self T st plan.
Proof.
  induction plan as [|[k s] plan IH]; intros st H; simpl; [done |].
  rewrite <- round_eval_mode by done.
  destruct (round _ _ _ _ _ _ _); [| done]. by rewrite IH.
Qed.

(** C10 as stated fails: a call that raises in the loop (here a count of
    9 on sequences of length 6) never reaches [self.train(was_training)],
    and the wrapper that was in training mode is left in evaluation
    mode. *)
Lemma generate_raising_call_leaves_eval_mode :
  training
    (generate example_net float32_max example_wrapper_out_of_range None 1 0).1
  ≠ training example_wrapper_out_of_range.
Proof. vm_compute. discriminate. Qed.

(** C10, amended: [generate] runs its loop on the module in evaluation
    mode (the net is never sampled in training mode); every call that
    returns leaves the training flag of the wrapper as it was before the
    call, and sets the flag of the net to that same value; a call whose
    loop raises leaves the module in evaluation mode. *)
Theorem generate_restores_training_flag {World : Type}
    (net_sample : World → bool → Q → tensor Z → World * (tensor Z * tensor Q))
    (finfo_max : Q) (self : wrapper) (batch_size : option nat) (T : Q)
    (w : World) :
  training (eval self) = false ∧ net_training (eval self) = false ∧
  generate net_sample finfo_max self batch_size T w
  = generate (λ w _, net_sample w false) finfo_max self batch_size T w ∧
  (∀ out,
     (generate net_sample finfo_max self batch_size T w).2 = Some out →
     training (generate net_sample finfo_max self batch_size T w).1
     = training self ∧
     net_training (generate net_sample finfo_max self batch_size T w).1
     = training self) ∧
  (decode net_sample finfo_max (eval self) (default 1 batch_size) T w = None →
   generate net_sample finfo_max self batch_size T w = (eval self, None)).
Proof.
  split; [done |]. split; [done |]. split; [| split].
  - unfold generate, decode. by rewrite rounds_eval_mode.
  - intros out. unfold generate.
    destruct (decode _ _ _ _ _ _) as [tr|]; [| done].
    destruct (negb _); [| done].
    by destruct (g_seq _) as [|row [|]].
  - intros H. unfold generate. by rewrite H.
Qed.

Lemma generate_restores_training_flag_witness :
  (generate example_net float32_max example_wrapper None 1 0).2
  = Some (OneSequence example_output_row) ∧
  training (generate example_net float32_max example_wrapper None 1 0).1
  = training example_wrapper ∧
  net_training (generate example_net float32_max example_wrapper None 1 0).1
  = training example_wrapper.
Proof.
  split; [vm_compute; reflexivity |].
  apply (proj1 (proj2 (proj2 (proj2 (generate_restores_training_flag
           example_net float32_max example_wrapper None 1 0))))
           (OneSequence example_output_row)).
  vm_compute. reflexivity.
Defined.

(** * Further properties *)

(** ** sample_prob *)

Lemma sample_prob_grid (N m k : nat) :
  0 < N → sample_prob (Qnat m / Qnat N) (Qnat k / Qnat N) = (k <? m).
Proof.
  intros HN. unfold sample_prob.
  assert (H0 : (0 < Qnat N)%Q) by (by apply (Qnat_lt 0)).
  assert (Hinv : (0 < / Qnat N)%Q) by (by apply Qinv_lt_0_compat).
  unfold Qdiv.
  destruct (Nat.ltb_spec k m) as [Hk|Hk].
  - apply Qltb_lt. apply Qnat_lt in Hk. nra.
  - apply Qltb_ge. apply Qnat_le in Hk. nra.
Qed.

(** X1: on the uniform grid of [N] draws, [sample_prob] with a probability
    [m / N] fires on exactly [m] of the [N] draws. *)
Theorem sample_prob_frequency (N m : nat) :
  0 < N → m ≤ N →
  (frequency N (sample_prob (Qnat m / Qnat N)) == Qnat m / Qnat N)%Q.
Proof.
  intros HN Hm. unfold frequency, grid.
  rewrite count_if_fmap.
  rewrite (count_if_ext_in _ (λ k, k <? m)).
  2:{ intros k _. simpl. by apply sample_prob_grid. }
  rewrite count_if_ltb_seq, Nat.min_l by lia. reflexivity.
Qed.

Lemma sample_prob_frequency_witness :
  (frequency 100 (sample_prob (Qnat 75 / Qnat 100)) == Qnat 75 / Qnat 100)%Q.
Proof. apply (sample_prob_frequency 100 75); lia. Defined.


(** ** top_k *)

Lemma Qnat_lt_ceiling (r : nat) (c : Q) :
  Qltb (Qnat r) c = (r <? Z.to_nat (Qceiling c)).
Proof.
  destruct (Nat.ltb_spec r (Z.to_nat (Qceiling c))) as [H|H].
  - apply Qltb_lt.
    assert (Hz : (Z.of_nat r ≤ Qceiling c - 1)%Z) by lia.
    apply Qle_lt_trans with (inject_Z (Qceiling c - 1)).
    + unfold Qnat. by rewrite <- Zle_Qle.
    + apply Qceiling_lt.
  - apply Qltb_ge.
    destruct (Qlt_le_dec (Qnat r) c) as [Hlt|Hle]; [| done].
    exfalso.
    assert (Hc : (Qnat r < inject_Z (Qceiling c))%Q).
    { eapply Qlt_le_trans; [exact Hlt | apply Qle_ceiling]. }
    unfold Qnat in Hc. rewrite <- Zlt_Qlt in Hc. lia.
Qed.

Lemma count_below_seq (c : Q) (n : nat) :
  count_if (λ r, Qltb (Qnat r) c) (seq 0 n) = n `min` Z.to_nat (Qceiling c).
Proof.
  rewrite (count_if_ext_in _ (λ r, r <? Z.to_nat (Qceiling c))).
  - rewrite count_if_ltb_seq. lia.
  - intros r _. apply Qnat_lt_ceiling.
Qed.

Lemma top_k_count_range (thres : Q) (vocab : nat) :
  (0 <= thres <= 1)%Q → (0 ≤ top_k_count thres vocab ≤ Z.of_nat vocab)%Z.
Proof.
  intros [H0 H1]. unfold top_k_count.
  assert (Hv : (0 <= Qnat vocab)%Q) by (apply (Qnat_le 0); lia).
  split.
  - change 0%Z with (Qceiling 0). apply Qceiling_resp_le. nra.
  - rewrite <- (Qceiling_Z (Z.of_nat vocab)).
    apply Qceiling_resp_le. fold (Qnat vocab). nra.
Qed.

Lemma top_k_count_zero (vocab : nat) : top_k_count 0 vocab = Z.of_nat vocab.
Proof.
  unfold top_k_count. rewrite <- (Qceiling_Z (Z.of_nat vocab)).
  apply Qceiling_comp. fold (Qnat vocab). ring.
Qed.

Lemma top_k_count_one (vocab : nat) : top_k_count 1 vocab = 0%Z.
Proof.
  unfold top_k_count. change 0%Z with (Qceiling 0).
  apply Qceiling_comp. ring.
Qed.

Lemma sorted_take_drop {A} (R : A → A → Prop) (l : list A) (k : nat) x y :
  StronglySorted R l → x ∈ take k l → y ∈ drop k l → R x y.
Proof.
  intros Hs. revert k. induction Hs as [|a l Hs IH Ha]; intros k Hx Hy.
  - rewrite take_nil in Hx. by apply elem_of_nil in Hx.
  - destruct k as [|k]; simpl in *; [by apply elem_of_nil in Hx |].
    apply elem_of_cons in Hx as [-> | Hx].
    + rewrite Forall_forall in Ha. apply Ha.
      eapply elem_of_sublist; [exact Hy | apply sublist_drop].
    + by eapply IH.
Qed.

(** The pairs written by [scatter_vals]. *)
Lemma scatter_pairs_lookup_in (pairs : list (nat * Q)) :
  ∀ (dst : list filtered) (j : nat) v,
  NoDup pairs.*1 → (j, v) ∈ pairs → j < length dst →
  foldl (λ acc iv, <[iv.1 := Some iv.2]> acc) dst pairs !! j = Some (Some v).
Proof.
  induction pairs as [|[i q] pairs IH]; intros dst j v Hnd Hin Hj; simpl.
  - by apply elem_of_nil in Hin.
  - rewrite fmap_cons in Hnd. apply NoDup_cons in Hnd as [Hi Hnd]. simpl in Hi.
    apply elem_of_cons in Hin as [[= -> ->] | Hin].
    + clear IH. revert dst Hj.
      induction pairs as [|[i' q'] pairs IH']; intros dst Hj; simpl.
      * by apply list_lookup_insert_eq.
      * rewrite fmap_cons in Hi, Hnd. apply not_elem_of_cons in Hi as [Hne Hi].
        apply NoDup_cons in Hnd as [_ Hnd]. simpl in Hne.
        rewrite list_insert_insert_ne by done.
        apply IH'; [done | done |]. by rewrite length_insert.
    + apply IH; [done | done |]. by rewrite length_insert.
Qed.

Lemma scatter_pairs_lookup_notin (pairs : list (nat * Q)) :
  ∀ (dst : list filtered) (j : nat),
  j ∉ pairs.*1 →
  foldl (λ acc iv, <[iv.1 := Some iv.2]> acc) dst pairs !! j = dst !! j.
Proof.
  induction pairs as [|[i q] pairs IH]; intros dst j Hj; simpl; [done |].
  rewrite fmap_cons in Hj. apply not_elem_of_cons in Hj as [Hne Hj].
  rewrite IH by done. simpl in Hne. by rewrite list_lookup_insert_ne.
Qed.

Lemma length_scatter_pairs (pairs : list (nat * Q)) :
  ∀ dst : list filtered,
  length (foldl (λ acc iv, <[iv.1 := Some iv.2]> acc) dst pairs) = length dst.
Proof.
  induction pairs as [|[i q] pairs IH]; intros dst; simpl; [done |].
  by rewrite IH, length_insert.
Qed.

Lemma kept_insert (l : list filtered) (i : nat) (q : Q) :
  l !! i = Some None → kept (<[i:=Some q]> l) = S (kept l).
Proof.
  unfold kept. revert i.
  induction l as [|p l IH]; intros [|i] H; simplify_eq/=.
  - done.
  - rewrite (IH i) by done. lia.
Qed.

Lemma kept_scatter_pairs (pairs : list (nat * Q)) :
  ∀ dst : list filtered,
  NoDup pairs.*1 → (∀ i, i ∈ pairs.*1 → dst !! i = Some None) →
  kept (foldl (λ acc iv, <[iv.1 := Some iv.2]> acc) dst pairs)
  = kept dst + length pairs.
Proof.
  induction pairs as [|[i q] pairs IH]; intros dst Hnd H; simpl; [lia |].
  rewrite fmap_cons in Hnd, H. apply NoDup_cons in Hnd as [Hi Hnd].
  simpl in Hi. rewrite IH; [| done |].
  - rewrite kept_insert; [lia |]. apply H. left.
  - intros j Hj. simpl. rewrite list_lookup_insert_ne.
    + apply H. by right.
    + intros ->. done.
Qed.

Lemma kept_replicate_None (n : nat) : kept (replicate n None) = 0.
Proof. unfold kept. induction n; simpl; done. Qed.

(** The result of lines 22-25, through the pairs they scatter. *)
Lemma top_k_vec_with_Some (k : Z) (logits : list Q) probs :
  top_k_vec_with k logits = Some probs →
  (0 ≤ k ≤ Z.of_nat (length logits))%Z ∧
  probs = foldl (λ acc iv, <[iv.1 := Some iv.2]> acc)
            (replicate (length logits) None)
            (take (Z.to_nat k) (sort_desc logits)).
Proof.
  unfold top_k_vec_with. intros H.
  destruct (topk_row logits _) as [ind|] eqn:E; [| done].
  injection H as <-. apply topk_row_Some in E as [Hk ->].
  split; [done |]. unfold scatter_vals.
  by rewrite <- !fmap_take, zip_fst_snd.
Qed.

(** [top_k] is lines 22-25 at the count of line 21. *)
Lemma top_k_vec_unfold (logits : list Q) (thres : Q) :
  top_k_vec logits thres
  = top_k_vec_with (top_k_count thres (length logits)) logits.
Proof. reflexivity. Qed.

Lemma sort_desc_take_NoDup (logits : list Q) (k : nat) :
  NoDup (take k (sort_desc logits)).*1.
Proof.
  rewrite fmap_take.
  eapply sublist_NoDup; [| apply sublist_take].
  unfold sort_desc. rewrite sort_by_indices. apply NoDup_seq.
Qed.

Lemma sort_desc_elem (logits : list Q) (j : nat) (v : Q) :
  (j, v) ∈ sort_desc logits ↔ logits !! j = Some v.
Proof. unfold sort_desc. rewrite sort_by_perm. apply enumerate_lookup. Qed.

Lemma length_sort_desc (logits : list Q) :
  length (sort_desc logits) = length logits.
Proof.
  unfold sort_desc. rewrite sort_by_perm. unfold enumerate.
  rewrite length_zip_with_l_eq; rewrite length_seq; done.
Qed.

(** What is kept: the first [k] pairs of the descending sort. *)
Lemma top_k_vec_with_kept (k : Z) (logits : list Q) (probs : list filtered) :
  top_k_vec_with k logits = Some probs →
  length probs = length logits ∧
  Z.of_nat (kept probs) = k ∧
  (∀ j v, probs !! j = Some (Some v) → logits !! j = Some v) ∧
  (∀ j v, probs !! j = Some (Some v) ↔
          (j, v) ∈ take (Z.to_nat k) (sort_desc logits)).
Proof.
  intros H. apply top_k_vec_with_Some in H as [Hk ->].
  set (n := Z.to_nat k) in *.
  set (pairs := take n (sort_desc logits)).
  assert (Hnd : NoDup pairs.*1) by apply sort_desc_take_NoDup.
  assert (Hin : ∀ j v, (j, v) ∈ pairs → logits !! j = Some v).
  { intros j v Hjv. apply sort_desc_elem.
    apply elem_of_take in Hjv as (i & Hi & _).
    by eapply list_elem_of_lookup_2. }
  assert (Hkept : ∀ j v,
    foldl (λ acc iv, <[iv.1 := Some iv.2]> acc)
      (replicate (length logits) None) pairs !! j = Some (Some v) ↔
    (j, v) ∈ pairs).
  { intros j v. split.
    - intros Hj.
      destruct (decide (j ∈ pairs.*1)) as [Hjin|Hjout].
      + apply list_elem_of_fmap in Hjin as ([j' v'] & -> & Hjv). simpl in *.
        rewrite (scatter_pairs_lookup_in pairs _ j' v') in Hj; try done.
        * by simplify_eq.
        * rewrite length_replicate. apply Hin in Hjv.
          by eapply lookup_lt_Some.
      + rewrite scatter_pairs_lookup_notin in Hj by done.
        apply lookup_replicate in Hj as [? _]. done.
    - intros Hjv. apply scatter_pairs_lookup_in; [done | done |].
      rewrite length_replicate. apply Hin in Hjv. by eapply lookup_lt_Some. }
  split_and!.
  - by rewrite length_scatter_pairs, length_replicate.
  - rewrite kept_scatter_pairs, kept_replicate_None; [| done |].
    + unfold pairs. rewrite length_take_le; [lia |].
      rewrite length_sort_desc. lia.
    + intros i Hi. apply lookup_replicate. split; [done |].
      apply list_elem_of_fmap in Hi as ([i' v'] & -> & Hiv). simpl.
      apply Hin in Hiv. by eapply lookup_lt_Some.
  - intros j v Hj. by apply Hin, Hkept.
  - done.
Qed.

(** The stable [topk] of the embedding is one of the results that
    [topk] can return. *)
Lemma topk_row_result (logits : list Q) (k : Z) (ind : list nat) :
  topk_row logits k = Some ind →
  topk_result logits k (take (Z.to_nat k) (sort_desc logits).*2) ind.
Proof.
  intros H. apply topk_row_Some in H as [Hk ->].
  set (n := Z.to_nat k).
  assert (Hlen : length (take n (sort_desc logits)) = n).
  { rewrite length_take_le; [done |]. rewrite length_sort_desc. lia. }
  rewrite <- !fmap_take. split_and!.
  - rewrite length_fmap, Hlen. lia.
  - apply sort_desc_take_NoDup.
  - apply Forall2_fmap, Forall_Forall2_diag, Forall_forall.
    intros [j v] Hjv. simpl. apply sort_desc_elem.
    eapply elem_of_sublist; [exact Hjv | apply sublist_take].
  - intros j' v' Hj' Hout. apply Forall_fmap, Forall_forall.
    intros [j v] Hjv. simpl.
    apply sort_desc_elem in Hj'.
    rewrite <- (take_drop n (sort_desc logits)) in Hj'.
    apply elem_of_app in Hj' as [Hj' | Hj'].
    + destruct Hout. apply list_elem_of_fmap. by exists (j', v').
    + apply (sorted_take_drop desc (sort_desc logits) n (j, v) (j', v'));
        [apply sort_desc_sorted | done | done].
Qed.

(** A run of the embedding is one of the runs of [top_k_returns]. *)
Lemma top_k_vec_with_returns (k : Z) (logits : list Q)
    (probs : list filtered) :
  top_k_vec_with k logits = Some probs → top_k_returns k logits probs.
Proof.
  unfold top_k_vec_with. intros H.
  destruct (topk_row logits k) as [ind|] eqn:E; [| done].
  injection H as <-.
  exists (take (Z.to_nat k) (sort_desc logits).*2), ind.
  split; [by apply topk_row_result | done].
Qed.

(** X2: whatever count [k] line 21 computes and whichever of the equal
    logits [topk] takes, [top_k] keeps the shape of the vector, keeps
    exactly [k] logits at their original value, and every kept logit is
    at least as large as every filtered one. *)
Theorem top_k_keeps_k_largest (k : Z) (logits : list Q)
    (probs : list filtered) :
  top_k_returns k logits probs →
  length probs = length logits ∧
  Z.of_nat (kept probs) = k ∧
  (∀ j v, probs !! j = Some (Some v) → logits !! j = Some v) ∧
  (∀ i j v d, probs !! i = Some (Some v) → probs !! j = Some None →
              logits !! j = Some d → (d <= v)%Q).
Proof.
  intros (val & ind & (Hk & Hnd & Hval & Hout) & ->).
  unfold top_k_probs, scatter_vals. cbv zeta.
  set (pairs := zip ind val).
  assert (Hfst : pairs.*1 = ind).
  { apply fst_zip. apply Forall2_length in Hval. lia. }
  assert (Hlenp : length pairs = length ind).
  { unfold pairs. apply length_zip_with_l_eq. by eapply Forall2_length. }
  assert (Hin : ∀ j v, (j, v) ∈ pairs → logits !! j = Some v).
  { intros j v Hjv. apply list_elem_of_lookup in Hjv as [i Hi].
    apply lookup_zip_with_Some in Hi as (j0 & v0 & [= -> ->] & Hj & Hv).
    by eapply (Forall2_lookup_lr _ _ _ _ _ _ Hval). }
  assert (Hkept : ∀ j v,
    foldl (λ acc iv, <[iv.1 := Some iv.2]> acc)
      (replicate (length logits) None) pairs !! j = Some (Some v) ↔
    (j, v) ∈ pairs).
  { intros j v. split.
    - intros Hj.
      destruct (decide (j ∈ pairs.*1)) as [Hjin|Hjout].
      + apply list_elem_of_fmap in Hjin as ([j' v'] & -> & Hjv). simpl in *.
        rewrite (scatter_pairs_lookup_in pairs _ j' v') in Hj.
        * by simplify_eq.
        * by rewrite Hfst.
        * done.
        * rewrite length_replicate. apply Hin in Hjv.
          by eapply lookup_lt_Some.
      + rewrite scatter_pairs_lookup_notin in Hj by done.
        apply lookup_replicate in Hj as [? _]. done.
    - intros Hjv. apply scatter_pairs_lookup_in; [by rewrite Hfst | done |].
      rewrite length_replicate. apply Hin in Hjv. by eapply lookup_lt_Some. }
  split_and!.
  - by rewrite length_scatter_pairs, length_replicate.
  - rewrite kept_scatter_pairs, kept_replicate_None; [lia | by rewrite Hfst |].
    intros i Hi. apply lookup_replicate. split; [done |].
    apply list_elem_of_fmap in Hi as ([i' v'] & -> & Hiv). simpl.
    apply Hin in Hiv. by eapply lookup_lt_Some.
  - intros j v Hj. by apply Hin, Hkept.
  - intros i j v d Hi Hj Hd.
    apply Hkept in Hi.
    assert (Hv : v ∈ val).
    { apply list_elem_of_lookup in Hi as [idx Hidx].
      apply lookup_zip_with_Some in Hidx as (j0 & v0 & [= -> ->] & _ & Hv).
      by eapply list_elem_of_lookup_2. }
    assert (Hj' : j ∉ ind).
    { intros Hjin. rewrite <- Hfst in Hjin.
      apply list_elem_of_fmap in Hjin as ([j0 v0] & -> & Hjv). simpl in *.
      apply Hkept in Hjv. rewrite Hj in Hjv. done. }
    pose proof (Hout j d Hd Hj') as Hall.
    rewrite Forall_forall in Hall. by apply Hall.
Qed.

(** Two logits are equal to [9/10]; [topk] with [k = 1] may take the
    second of them. *)
Lemma top_k_keeps_k_largest_witness :
  let logits := [3#10; 9#10; 1#10; 9#10; 5#10]%Q in
  let probs := [None; None; None; Some (9#10)%Q; None] in
  length probs = length logits ∧
  Z.of_nat (kept probs) = 1%Z ∧
  (∀ j v, probs !! j = Some (Some v) → logits !! j = Some v) ∧
  (∀ i j v d, probs !! i = Some (Some v) → probs !! j = Some None →
              logits !! j = Some d → (d <= v)%Q).
Proof.
  apply (top_k_keeps_k_largest 1 [3#10; 9#10; 1#10; 9#10; 5#10]%Q
           [None; None; None; Some (9#10)%Q; None]).
  exists [(9#10)%Q], [3]. split; [| reflexivity].
  split_and!.
  - reflexivity.
  - apply NoDup_singleton.
  - repeat constructor.
  - intros j' v' Hj' Hout. apply Forall_singleton.
    destruct j' as [|[|[|[|[|j']]]]]; simplify_eq/=;
      apply Qle_bool_iff; reflexivity.
Defined.

Lemma kept_le_length (l : list filtered) : kept l ≤ length l.
Proof. unfold kept. induction l as [|[q|] l IH]; simpl; lia. Qed.

Lemma kept_all (l : list filtered) (j : nat) p :
  kept l = length l → l !! j = Some p → is_Some p.
Proof.
  revert j. induction l as [|[q|] l IH]; intros [|j] H Hj; simplify_eq/=.
  - eauto.
  - apply (IH j); [| done]. unfold kept in *. simpl in H. lia.
  - pose proof (kept_le_length l). unfold kept in *. simpl in H. lia.
  - pose proof (kept_le_length l). unfold kept in *. simpl in H. lia.
Qed.

Lemma kept_none (l : list filtered) (j : nat) p :
  kept l = 0 → l !! j = Some p → p = None.
Proof.
  revert j. induction l as [|[q|] l IH]; intros [|j] H Hj; simplify_eq/=.
  - done.
  - by apply (IH j).
Qed.

(** X3: [top_k] with threshold 0 keeps every logit, with threshold 1 it
    filters every logit, and it returns for every threshold in [0, 1]. *)
Theorem top_k_vec_threshold_edges (logits : list Q) :
  top_k_vec logits 0 = Some (Some <$> logits) ∧
  top_k_vec logits 1 = Some (replicate (length logits) None) ∧
  ∀ thres, (0 <= thres <= 1)%Q → is_Some (top_k_vec logits thres).
Proof.
  assert (Hret : ∀ thres, (0 <= thres <= 1)%Q →
                          is_Some (top_k_vec logits thres)).
  { intros thres Ht. unfold top_k_vec.
    destruct (topk_row_is_Some logits (top_k_count thres (length logits)))
      as [ind ->]; [by apply top_k_count_range | eauto]. }
  split; [| split; [| done]].
  - destruct (Hret 0%Q) as [probs H]; [lra |]. rewrite H. f_equal.
    rewrite top_k_vec_unfold in H.
    apply top_k_vec_with_kept in H as (Hlen & Hk & Hval & _).
    rewrite top_k_count_zero in Hk.
    apply list_eq. intros j. rewrite list_lookup_fmap.
    destruct (probs !! j) as [p|] eqn:Hp.
    + destruct (kept_all probs j p) as [v ->]; [lia | done |].
      by rewrite (Hval j v Hp).
    + apply lookup_ge_None in Hp. rewrite Hlen in Hp.
      apply lookup_ge_None in Hp. by rewrite Hp.
  - destruct (Hret 1%Q) as [probs H]; [lra |]. rewrite H. f_equal.
    rewrite top_k_vec_unfold in H.
    apply top_k_vec_with_kept in H as (Hlen & Hk & _ & _).
    rewrite top_k_count_one in Hk.
    apply list_eq. intros j.
    destruct (probs !! j) as [p|] eqn:Hp.
    + rewrite (kept_none probs j p) by (done || lia).
      symmetry. apply lookup_replicate. split; [done |].
      rewrite <- Hlen. by eapply lookup_lt_Some.
    + symmetry. apply lookup_ge_None. rewrite length_replicate, <- Hlen.
      by apply lookup_ge_None.
Qed.

Lemma top_k_vec_threshold_edges_witness :
  is_Some (top_k_vec [3#10; 9#10; 1#10; 9#10; 5#10]%Q (9 # 10)).
Proof.
  apply (proj2 (proj2 (top_k_vec_threshold_edges
                         [3#10; 9#10; 1#10; 9#10; 5#10]%Q)) (9 # 10)).
  split; unfold Qle; simpl; lia.
Defined.

(** The tensor version filters every vector with [top_k_vec]. *)
Lemma top_k_filters_every_vector (logits : tensor (list Q)) (thres : Q)
    (probs : tensor (list filtered)) :
  top_k logits thres = Some probs →
  length probs = length logits ∧
  ∀ b row, logits !! b = Some row →
    ∃ prow, probs !! b = Some prow ∧ length prow = length row ∧
      ∀ i v, row !! i = Some v →
        ∃ p, prow !! i = Some p ∧ top_k_vec v thres = Some p.
Proof.
  unfold top_k. intros H. apply mapM_Some in H.
  split; [symmetry; by eapply Forall2_length |].
  intros b row Hrow.
  destruct (Forall2_lookup_l _ _ _ _ _ H Hrow) as (prow & Hprow & Hm).
  exists prow. split; [done |]. apply mapM_Some in Hm.
  split; [symmetry; by eapply Forall2_length |].
  intros i v Hv.
  destruct (Forall2_lookup_l _ _ _ _ _ Hm Hv) as (p & Hp & Hpv). eauto.
Qed.

(** ** Selection on a full mask, and the size of the primary mask *)

Lemma Qltb_comp (x y c : Q) : (x == y)%Q → Qltb x c = Qltb y c.
Proof.
  intros H. destruct (Qltb y c) eqn:E.
  - apply Qltb_lt. apply Qltb_lt in E. lra.
  - apply Qltb_ge. apply Qltb_ge in E. lra.
Qed.

Lemma sum_mask_fmap {A} (f : A → bool) (l : list A) :
  sum_mask (f <$> l) = count_if f l.
Proof. unfold sum_mask. by rewrite count_if_fmap. Qed.

Lemma length_argsort (keys : list Q) : length (argsort keys) = length keys.
Proof.
  unfold argsort. rewrite (sort_by_indices Qltb keys). apply length_seq.
Qed.

Lemma count_if_argsort (f : nat → bool) (keys : list Q) :
  count_if f (argsort keys) = count_if f (seq 0 (length keys)).
Proof. unfold argsort. apply count_if_perm, sort_by_indices. Qed.

Lemma not_row_replicate (n : nat) (b : bool) :
  not_row (replicate n b) = replicate n (negb b).
Proof. unfold not_row. apply fmap_replicate. Qed.

Lemma masked_fill_row_none {A} (t : list A) (v : A) :
  masked_fill_row t (replicate (length t) false) v = t.
Proof.
  unfold masked_fill_row. induction t as [|x t IH]; simpl; [done |].
  by rewrite IH.
Qed.

Lemma sum_mask_replicate_false (n : nat) : sum_mask (replicate n false) = 0.
Proof. unfold sum_mask. induction n; simpl; done. Qed.

(** [get_mask_subset_prob] of one row is lines 45-49 at the
    [num_to_mask] of line 39 and the [argsort] of line 43. *)
Lemma get_mask_subset_prob_row_unfold (keys : list Q) (mask : list bool)
    (prob min_mask : Q) :
  get_mask_subset_prob_row keys mask prob min_mask
  = subset_with (Qmax (Qnat (sum_mask mask) * prob) min_mask)
      (argsort (masked_fill_row keys (not_row mask) (-1)%Q)) mask.
Proof. reflexivity. Qed.

(** X4: when every position of a row of [n] is eligible, then for every
    value [num_to_mask] that line 39 hands on and every permutation that
    the [argsort] of line 43 returns, lines 45-49 select position [j]
    exactly when its entry of the permutation is below [num_to_mask], so
    that [min(n, ceil(num_to_mask))] positions are selected. *)
Theorem get_mask_subset_prob_row_full_mask (num_to_mask : Q)
    (randperm : list nat) (n : nat) :
  randperm ≡ₚ seq 0 n →
  let subset_mask := subset_with num_to_mask randperm (replicate n true) in
  length subset_mask = n ∧
  (∀ (j r : nat), randperm !! j = Some r →
     subset_mask !! j = Some (Qltb (Qnat r) num_to_mask)) ∧
  sum_mask subset_mask = n `min` Z.to_nat (Qceiling num_to_mask).
Proof.
  intros Hperm. cbv zeta.
  assert (Hlen : length randperm = n).
  { apply Permutation_length in Hperm. by rewrite length_seq in Hperm. }
  assert (Heq : subset_with num_to_mask randperm (replicate n true)
                = (λ r, Qltb (Qnat r) num_to_mask) <$> randperm).
  { unfold subset_with. rewrite not_row_replicate. simpl negb.
    rewrite sum_mask_replicate_false.
    rewrite <- !list_fmap_compose.
    replace (replicate n false)
      with (replicate
              (length ((λ r, Qltb r num_to_mask)
                         ∘ (λ r, (r - Qnat 0)%Q) ∘ Qnat <$> randperm))
              false)
      by (by rewrite length_fmap, Hlen).
    rewrite masked_fill_row_none.
    apply list_fmap_ext. intros _ r _. simpl.
    apply Qltb_comp. change (Qnat 0) with 0%Q. ring. }
  rewrite Heq. split_and!.
  - by rewrite length_fmap.
  - intros j r Hj. by rewrite list_lookup_fmap, Hj.
  - rewrite sum_mask_fmap, (count_if_perm _ _ _ Hperm).
    apply count_below_seq.
Qed.

Lemma get_mask_subset_prob_row_full_mask_witness :
  let subset_mask :=
    subset_with (15728641 # 1048576) (reverse (seq 0 25))
      (replicate 25 true) in
  length subset_mask = 25 ∧
  (∀ (j r : nat), reverse (seq 0 25) !! j = Some r →
     subset_mask !! j = Some (Qltb (Qnat r) (15728641 # 1048576))) ∧
  sum_mask subset_mask = 16.
Proof.
  apply (get_mask_subset_prob_row_full_mask (15728641 # 1048576)
           (reverse (seq 0 25)) 25).
  apply reverse_Permutation.
Defined.

(** The primary mask of [forward] is line 210 at the [argsort] of line
    206 and the counts of line 209. *)
Lemma primary_mask_unfold (self : wrapper) (n : nat) (d : forward_draws) :
  primary_mask self n d
  = primary_mask_with (argsort <$> perm_keys d) (num_tokens_mask self n d).
Proof. reflexivity. Qed.

(** X5: for every batch of permutations that the [argsort] of line 206
    returns and every vector of counts that the clamp of line 209 leaves
    (each at least 1), the primary mask of line 210 has the shape of the
    batch, and its row [i] has [min(n, ceil(c))] true entries for the
    count [c] of the row: at least one on a non-empty row. *)
Theorem primary_mask_row_count (b n : nat) (batched_randperm : tensor nat)
    (num_tokens_mask : list Q) :
  length batched_randperm = b →
  Forall (λ perm, perm ≡ₚ seq 0 n) batched_randperm →
  length num_tokens_mask = b →
  Forall (λ c, (1 <= c)%Q) num_tokens_mask →
  let mask := primary_mask_with batched_randperm num_tokens_mask in
  shape b n mask ∧
  ∀ (i : nat) row, mask !! i = Some row →
    ∃ c, num_tokens_mask !! i = Some c ∧
      sum_mask row = n `min` Z.to_nat (Qceiling c) ∧
      (0 < n → 1 ≤ sum_mask row).
Proof.
  intros Hb Hperm Hlen Hclamp. cbv zeta. unfold primary_mask_with.
  rewrite Forall_lookup in Hperm. rewrite Forall_lookup in Hclamp.
  split.
  - apply shape_intro.
    + rewrite length_zip_with_l_eq; [done | by rewrite Hb, Hlen].
    + intros i row Hi.
      apply lookup_zip_with_Some in Hi as (perm & c & -> & Hp & Hc).
      rewrite length_fmap.
      pose proof (Permutation_length (Hperm _ _ Hp)) as Hl.
      by rewrite length_seq in Hl.
  - intros i row Hi.
    apply lookup_zip_with_Some in Hi as (perm & c & -> & Hp & Hc).
    exists c. split; [done |].
    assert (Hcount : sum_mask ((λ r, Qltb (Qnat r) c) <$> perm)
                     = n `min` Z.to_nat (Qceiling c)).
    { rewrite sum_mask_fmap, (count_if_perm _ _ _ (Hperm _ _ Hp)).
      apply count_below_seq. }
    split; [done |]. intros Hn. rewrite Hcount.
    pose proof (Qceiling_resp_le _ _ (Hclamp _ _ Hc)) as Hceil.
    change (Qceiling 1) with 1%Z in Hceil. lia.
Qed.

(** A row of three at the count 2.0, to which float32 rounds
    [(1 - t) * 3] at [t = 5592405 / 2^24]. *)
Lemma primary_mask_row_count_witness :
  let mask := primary_mask_with [reverse (seq 0 3)] [2%Q] in
  shape 1 3 mask ∧
  ∀ (i : nat) row, mask !! i = Some row →
    ∃ c, [2%Q] !! i = Some c ∧
      sum_mask row = 3 `min` Z.to_nat (Qceiling c) ∧
      (0 < 3 → 1 ≤ sum_mask row).
Proof.
  apply (primary_mask_row_count 1 3 [reverse (seq 0 3)] [2%Q]).
  - reflexivity.
  - apply Forall_singleton. apply reverse_Permutation.
  - reflexivity.
  - apply Forall_singleton. apply Qle_bool_iff. reflexivity.
Defined.

(** Row [b] of the primary mask, from its keys and its time. *)
Lemma primary_mask_row_lookup (self : wrapper) (n : nat) (d : forward_draws)
    (b : nat) (row : list bool) :
  primary_mask self n d !! b = Some row →
  ∃ keys t,
    perm_keys d !! b = Some keys ∧ rand_times d !! b = Some t ∧
    row = (λ r, Qltb (Qnat r) (Qmax (schedule_fn self t * Qnat n) 1))
            <$> argsort keys ∧
    length row = length keys ∧
    sum_mask row
    = length keys
        `min` Z.to_nat (Qceiling (Qmax (schedule_fn self t * Qnat n) 1)) ∧
    (keys ≠ [] → 1 ≤ sum_mask row).
Proof.
  unfold primary_mask. unfold num_tokens_mask. intros H.
  apply lookup_zip_with_Some in H as (perm & c & -> & Hperm & Hc).
  rewrite list_lookup_fmap in Hperm. rewrite list_lookup_fmap in Hc.
  destruct (perm_keys d !! b) as [keys|]; [| done].
  destruct (rand_times d !! b) as [t|]; [| done].
  simpl in *. injection Hperm as <-. injection Hc as <-.
  exists keys, t. split_and!; try done.
  - by rewrite length_fmap, length_argsort.
  - by rewrite sum_mask_fmap, count_if_argsort, count_below_seq.
  - intros Hne. by apply primary_mask_row_nonempty.
Qed.

Lemma insert_by_asc x l :
  StronglySorted asc l → StronglySorted asc (insert_by Qltb x l).
Proof.
  induction 1 as [|y l Hs IH Hy]; simpl.
  - repeat constructor.
  - destruct (Qltb y.2 x.2) eqn:E.
    + constructor; [done |].
      rewrite insert_by_perm. constructor; [| done].
      apply Qltb_lt in E. unfold asc. lra.
    + apply Qltb_ge in E. constructor; [by constructor |].
      constructor; [done |].
      eapply Forall_impl; [exact Hy |].
      unfold asc. intros z Hz. lra.
Qed.

Lemma sort_asc_sorted (keys : list Q) :
  StronglySorted asc (sort_by Qltb (enumerate keys)).
Proof.
  unfold sort_by.
  induction (enumerate keys) as [|x l IH]; simpl; [constructor |].
  by apply insert_by_asc.
Qed.

Lemma sorted_lookup_lt {A} (R : A → A → Prop) (l : list A) (a b : nat) x y :
  StronglySorted R l → a < b → l !! a = Some x → l !! b = Some y → R x y.
Proof.
  intros Hs. revert a b.
  induction Hs as [|z l Hs IH Hz]; intros a b Hab Ha Hb; [done |].
  destruct b as [|b]; [lia |]. simpl in Hb.
  destruct a as [|a]; simpl in Ha.
  - injection Ha as <-. rewrite Forall_forall in Hz. apply Hz.
    by eapply list_elem_of_lookup_2.
  - apply (IH a b); [lia | done | done].
Qed.

(** [argsort] lists the positions by ascending key. *)
Lemma argsort_ascending (keys : list Q) (a b pa pb : nat) (ka kb : Q) :
  a ≤ b → argsort keys !! a = Some pa → argsort keys !! b = Some pb →
  keys !! pa = Some ka → keys !! pb = Some kb → (ka <= kb)%Q.
Proof.
  unfold argsort. intros Hab Ha Hb Hka Hkb.
  rewrite list_lookup_fmap in Ha. rewrite list_lookup_fmap in Hb.
  destruct (sort_by Qltb (enumerate keys) !! a) as [[pa' ka']|] eqn:Ea;
    [| done].
  destruct (sort_by Qltb (enumerate keys) !! b) as [[pb' kb']|] eqn:Eb;
    [| done].
  simpl in *. injection Ha as ->. injection Hb as ->.
  assert (Hin : ∀ i p k, sort_by Qltb (enumerate keys) !! i = Some (p, k) →
                         keys !! p = Some k).
  { intros i p k Hi. apply enumerate_lookup.
    rewrite <- (sort_by_perm Qltb). by eapply list_elem_of_lookup_2. }
  pose proof (Hin _ _ _ Ea) as Hka'. pose proof (Hin _ _ _ Eb) as Hkb'.
  simplify_eq.
  destruct (decide (a = b)) as [-> | Hne].
  - simplify_eq. apply Qle_refl.
  - apply (sorted_lookup_lt asc _ a b (pa, ka) (pb, kb)
             (sort_asc_sorted keys)); [lia | done | done].
Qed.

Lemma Qmax_ge_r (x c : Q) : (c <= Qmax x c)%Q.
Proof.
  unfold Qmax. destruct (Qle_bool x c) eqn:E; [apply Qle_refl |].
  apply not_true_iff_false in E. rewrite Qle_bool_iff in E.
  apply Qnot_le_lt in E. by apply Qlt_le_weak.
Qed.

(** C4: on every input of the configured length, with draws of the shape
    of [x], [forward] returns; the positions of the cross-entropy loss
    form a mask of the shape of [x] whose row [i] marks the positions [j]
    with [perm[j] < c], where [perm] is a permutation of the positions
    that lists them by ascending random key and [c] is the count of the
    row, clamped to at least 1, so that every row has
    [min(n, ceil(c)) >= 1] loss positions; the labels are the entries of
    the original [x] at those positions; and neither the positions nor
    the labels depend on the coin flips, the keys of the two subset
    selections or the random tokens. *)
Theorem forward_loss_on_primary_mask (self : wrapper) (x : tensor Z)
    (d : forward_draws) :
  forallb (λ row, length row =? max_seq_len self) x = true →
  shape (length x) (max_seq_len self) (perm_keys d) →
  length (rand_times d) = length x →
  ∃ tr, forward self x d = Some tr ∧
    shape (length x) (max_seq_len self) (loss_mask tr) ∧
    (∀ i row, loss_mask tr !! i = Some row →
       ∃ keys perm c,
         perm_keys d !! i = Some keys ∧
         perm ≡ₚ seq 0 (max_seq_len self) ∧
         (∀ a b pa pb ka kb, a ≤ b →
            perm !! a = Some pa → perm !! b = Some pb →
            keys !! pa = Some ka → keys !! pb = Some kb → (ka <= kb)%Q) ∧
         (1 <= c)%Q ∧
         row = (λ r, Qltb (Qnat r) c) <$> perm ∧
         sum_mask row = max_seq_len self `min` Z.to_nat (Qceiling c) ∧
         (0 < max_seq_len self → 1 ≤ sum_mask row)) ∧
    labels tr = masked_select x (loss_mask tr) ∧
    ∀ d', rand_times d' = rand_times d → perm_keys d' = perm_keys d →
      ∃ tr', forward self x d' = Some tr' ∧
        loss_mask tr' = loss_mask tr ∧ labels tr' = labels tr.
Proof.
  intros Hn Hkeys Htimes.
  assert (Hret : ∀ d0, ∃ tr0, forward self x d0 = Some tr0).
  { intros d0. unfold forward. rewrite Hn. eauto. }
  destruct (Hret d) as [tr Htr]. exists tr.
  destruct (forward_loss_args _ _ _ _ Htr) as [Hm Hl].
  split; [done |]. split_and!.
  - rewrite Hm. apply shape_intro.
    + unfold primary_mask, num_tokens_mask.
      rewrite length_zip_with_l_eq; rewrite !length_fmap;
        destruct Hkeys as [-> _]; done.
    + intros i row Hi.
      apply primary_mask_row_lookup
        in Hi as (keys & t & Hk & _ & _ & -> & _).
      by apply (shape_lookup _ _ _ _ _ Hkeys Hk).
  - intros i row Hi. rewrite Hm in Hi.
    apply primary_mask_row_lookup
      in Hi as (keys & t & Hk & Ht & Hrow & Hlen & Hcount & Hne).
    destruct (shape_lookup _ _ _ _ _ Hkeys Hk) as [_ Hlk].
    exists keys, (argsort keys),
      (Qmax (schedule_fn self t * Qnat (max_seq_len self)) 1).
    split_and!; try done.
    + unfold argsort. rewrite sort_by_indices. by rewrite Hlk.
    + intros a b pa pb ka kb. apply argsort_ascending.
    + apply Qmax_ge_r.
    + by rewrite Hcount, Hlk.
    + intros Hpos. apply Hne. intros ->. simpl in Hlk. lia.
  - by rewrite Hm.
  - intros d' Ht Hk. destruct (Hret d') as [tr' Htr']. exists tr'.
    destruct (forward_loss_args _ _ _ _ Htr') as [Hm' Hl'].
    assert (Hp : primary_mask self (max_seq_len self) d'
                 = primary_mask self (max_seq_len self) d).
    { unfold primary_mask, num_tokens_mask. by rewrite Ht, Hk. }
    split; [done |]. rewrite Hm', Hl', Hm, Hl, Hp. done.
Qed.

Lemma forward_loss_on_primary_mask_witness :
  ∃ tr, forward example_wrapper example_x example_draws = Some tr ∧
    shape (length example_x) (max_seq_len example_wrapper) (loss_mask tr) ∧
    (∀ i row, loss_mask tr !! i = Some row →
       ∃ keys perm c,
         perm_keys example_draws !! i = Some keys ∧
         perm ≡ₚ seq 0 (max_seq_len example_wrapper) ∧
         (∀ a b pa pb ka kb, a ≤ b →
            perm !! a = Some pa → perm !! b = Some pb →
            keys !! pa = Some ka → keys !! pb = Some kb → (ka <= kb)%Q) ∧
         (1 <= c)%Q ∧
         row = (λ r, Qltb (Qnat r) c) <$> perm ∧
         sum_mask row
         = max_seq_len example_wrapper `min` Z.to_nat (Qceiling c) ∧
         (0 < max_seq_len example_wrapper → 1 ≤ sum_mask row)) ∧
    labels tr = masked_select example_x (loss_mask tr) ∧
    ∀ d', rand_times d' = rand_times example_draws →
      perm_keys d' = perm_keys example_draws →
      ∃ tr', forward example_wrapper example_x d' = Some tr' ∧
        loss_mask tr' = loss_mask tr ∧ labels tr' = labels tr.
Proof.
  apply (forward_loss_on_primary_mask example_wrapper example_x
           example_draws).
  - reflexivity.
  - split; [reflexivity |]. repeat constructor.
  - reflexivity.
Defined.

(** ** forward: the corrupted input *)

Lemma masked_fill_lookup2 {A} (t : tensor A) mask (v y : A) (i j : nat) :
  lookup2 (masked_fill t mask v) i j = Some y ↔
  ∃ x (m : bool), lookup2 t i j = Some x ∧ lookup2 mask i j = Some m ∧
                  y = (if m then v else x).
Proof.
  rewrite lookup2_Some. unfold masked_fill. split.
  - intros (row & Hrow & Hj).
    apply lookup_zip_with_Some in Hrow as (r & mr & -> & Hr & Hmr).
    apply masked_fill_row_lookup in Hj as (x & m & Hx & Hm & ->).
    exists x, m. rewrite !lookup2_Some. eauto 10.
  - intros (x & m & Hx & Hm & ->).
    apply lookup2_Some in Hx as (r & Hr & Hx).
    apply lookup2_Some in Hm as (mr & Hmr & Hm).
    exists (masked_fill_row r mr v). split.
    + apply lookup_zip_with_Some. eauto.
    + apply masked_fill_row_lookup. eauto.
Qed.

Lemma where_lookup2 {A} cond (a b : tensor A) (i j : nat) (y : A) :
  lookup2 (where_ cond a b) i j = Some y →
  ∃ (c : bool) u v, lookup2 cond i j = Some c ∧ lookup2 a i j = Some u ∧
                    lookup2 b i j = Some v ∧ y = (if c then u else v).
Proof.
  rewrite lookup2_Some. unfold where_. intros (row & Hrow & Hj).
  apply map3_lookup_Some in Hrow as (cr & ar & br & Hc & Ha & Hb & ->).
  unfold where_row in Hj.
  apply map3_lookup_Some in Hj as (c & u & v & Hcj & Hu & Hv & ->).
  exists c, u, v. rewrite !lookup2_Some. eauto 10.
Qed.

Lemma and_not_lookup2 (a b : tensor bool) (i j : nat) :
  lookup2 (and_not a b) i j = Some true → lookup2 a i j = Some true.
Proof.
  rewrite !lookup2_Some. unfold and_not. intros (row & Hrow & Hj).
  apply lookup_zip_with_Some in Hrow as (ar & br & -> & Ha & Hb).
  unfold and_not_row in Hj.
  apply lookup_zip_with_Some in Hj as (p & q & Hpq & Hp & Hq).
  exists ar. split; [done |]. destruct p; [done | discriminate].
Qed.

Lemma get_mask_subset_prob_lookup2 keys mask prob min_mask (i j : nat) :
  lookup2 (get_mask_subset_prob keys mask prob min_mask) i j = Some true →
  lookup2 mask i j = Some true.
Proof.
  rewrite !lookup2_Some. unfold get_mask_subset_prob.
  intros (row & Hrow & Hj).
  apply lookup_zip_with_Some in Hrow as (k & m & -> & _ & Hm).
  exists m. split; [done |]. by eapply subset_of_randperm_le_mask.
Qed.

Lemma no_replace_branch_within_mask self x d l :
  corrupted_within_mask x d l →
  corrupted_within_mask x d (no_replace_branch self d l).
Proof.
  intros [H1 H2]. unfold no_replace_branch.
  destruct (no_replace_gate _ _); [| done].
  split; simpl; [| done].
  intros i j H. apply H1. by eapply and_not_lookup2.
Qed.

Lemma random_token_branch_within_mask self x d l :
  corrupted_within_mask x d l →
  corrupted_within_mask x d (random_token_branch self d l).
Proof.
  intros [H1 H2]. unfold random_token_branch.
  destruct (random_token_gate _ _); [| done].
  split; simpl.
  - intros i j H. apply H1. by eapply and_not_lookup2.
  - intros i j v H.
    apply where_lookup2 in H as (c & u & y & Hc & Hu & Hy & ->).
    destruct c.
    + right. split; [| done].
      apply H1. by eapply get_mask_subset_prob_lookup2.
    + by apply H2.
Qed.

(** X6: every token [forward] hands to the net is the original token,
    or sits at a position of the primary mask and is the mask id or the
    random token drawn for that position. *)
Theorem forward_corrupts_within_primary_mask (self : wrapper)
    (x : tensor Z) (d : forward_draws) (tr : forward_trace) :
  forward self x d = Some tr →
  ∀ i j v, lookup2 (masked tr) i j = Some v →
    lookup2 x i j = Some v ∨
    (lookup2 (loss_mask tr) i j = Some true ∧
     (v = mask_id self ∨ lookup2 (random_tokens d) i j = Some v)).
Proof.
  intros H i j v Hv.
  destruct (forward_loss_args _ _ _ _ H) as [Hm _].
  unfold forward in H. destruct (forallb _ x); [| done].
  injection H as <-. simpl in *.
  set (l0 := {| l_x := x;
                l_mask := primary_mask self (max_seq_len self) d;
                l_labels :=
                  masked_select x (primary_mask self (max_seq_len self) d);
                l_replace_mask_id_mask :=
                  primary_mask self (max_seq_len self) d;
                l_frac_seq_left := 1 |}) in *.
  assert (H0 : corrupted_within_mask x d l0).
  { split; simpl; [done | by left]. }
  apply (no_replace_branch_within_mask self) in H0.
  apply (random_token_branch_within_mask self) in H0.
  destruct H0 as [H1 H2].
  apply masked_fill_lookup2 in Hv as (xv & m & Hx & Hmm & ->).
  destruct m.
  - right. split; [by apply H1 | by left].
  - destruct (H2 _ _ _ Hx) as [Hl | [Hl Hr]]; [by left |].
    right. split; [done | by right].
Qed.

Lemma forward_corrupts_within_primary_mask_witness :
  lookup2 example_x 0 3 = Some 24%Z ∨
  (lookup2 [[true; false; false; true; false; true]] 0 3 = Some true ∧
   (24%Z = mask_id example_wrapper ∨
    lookup2 (random_tokens example_draws) 0 3 = Some 24%Z)).
Proof.
  apply (forward_corrupts_within_primary_mask example_wrapper example_x
           example_draws
           {| masked := [[11; 12; 13; 24; 15; 16]]%Z;
              self_cond_pass := None;
              loss_mask := [[true; false; false; true; false; true]];
              labels := [11; 14; 16]%Z |} eq_refl 0 3 24%Z).
  reflexivity.
Defined.

(** X7: with [no_replace_prob] and [random_token_prob] at 0, the input
    of the net is [x] with the mask id at exactly the positions of the
    primary mask. *)
Theorem forward_without_corruption (self : wrapper) (x : tensor Z)
    (d : forward_draws) (tr : forward_trace) :
  (no_replace_prob self <= 0)%Q → (random_token_prob self <= 0)%Q →
  forward self x d = Some tr →
  masked tr = masked_fill x (loss_mask tr) (mask_id self) ∧
  ∀ i j xv (m : bool),
    lookup2 x i j = Some xv → lookup2 (loss_mask tr) i j = Some m →
    lookup2 (masked tr) i j = Some (if m then mask_id self else xv).
Proof.
  intros Hn Hr H.
  assert (Hm : masked tr = masked_fill x (loss_mask tr) (mask_id self)).
  { unfold forward in H. destruct (forallb _ x); [| done].
    injection H as <-. simpl.
    unfold random_token_branch, no_replace_branch,
      random_token_gate, no_replace_gate.
    apply Qltb_ge in Hn, Hr. rewrite Hn, Hr. done. }
  split; [done |].
  intros i j xv m Hx Hmask. rewrite Hm.
  apply masked_fill_lookup2. by exists xv, m.
Qed.

Lemma forward_without_corruption_witness :
  let self := {| mask_id := 100; steps := 4; max_seq_len := 6;
                 num_tokens := 100; no_replace_prob := 0;
                 random_token_prob := 0; schedule_fn := linear_schedule;
                 self_cond := false; self_cond_train_prob := 3 # 4;
                 training := true; net_training := true |} in
  let tr := {| masked := [[100; 12; 13; 100; 15; 100]]%Z;
               self_cond_pass := None;
               loss_mask := [[true; false; false; true; false; true]];
               labels := [11; 14; 16]%Z |} in
  masked tr = masked_fill example_x (loss_mask tr) (mask_id self) ∧
  ∀ i j xv (m : bool),
    lookup2 example_x i j = Some xv → lookup2 (loss_mask tr) i j = Some m →
    lookup2 (masked tr) i j = Some (if m then mask_id self else xv).
Proof.
  intros self tr.
  apply (forward_without_corruption self example_x example_draws tr).
  - unfold Qle. simpl. lia.
  - unfold Qle. simpl. lia.
  - vm_compute. reflexivity.
Defined.

(** ** forward: labels *)

Lemma length_select_row {A} (x : list A) (mask : list bool) :
  length mask ≤ length x → length (select_row x mask) = sum_mask mask.
Proof.
  unfold sum_mask. revert mask.
  induction x as [|v x IH]; intros [|m mask] H; simpl in *; try lia.
  destruct m; simpl; rewrite IH by lia; done.
Qed.

Lemma length_masked_select {A} (x : tensor A) (mask : tensor bool) :
  length mask ≤ length x →
  Forall2 (λ m r, length m ≤ length r) mask (take (length mask) x) →
  length (masked_select x mask) = sum_list (sum_mask <$> mask).
Proof.
  unfold masked_select. revert mask.
  induction x as [|r x IH]; intros [|m mask] Hlen H; simpl in *; try lia.
  apply Forall2_cons in H as [Hm H].
  rewrite length_app, length_select_row by done.
  rewrite IH; [done | lia | done].
Qed.

(** X8: for draws of the shape of [x], the number of labels equals the
    number of true entries of the loss mask, which has the shape of [x]. *)
Theorem forward_labels_count (self : wrapper) (x : tensor Z)
    (d : forward_draws) (tr : forward_trace) :
  shape (length x) (max_seq_len self) (perm_keys d) →
  length (rand_times d) = length x →
  forward self x d = Some tr →
  length (labels tr) = sum_list (sum_mask <$> loss_mask tr) ∧
  shape (length x) (max_seq_len self) (loss_mask tr).
Proof.
  intros Hkeys Htimes H.
  destruct (forward_loss_args _ _ _ _ H) as [Hm Hl].
  assert (Hx : Forall (λ row, length row = max_seq_len self) x).
  { unfold forward in H. destruct (forallb _ x) eqn:E; [| done].
    apply Forall_forall. intros row Hrow.
    rewrite forallb_forall in E. apply Nat.eqb_eq, E.
    by apply list_elem_of_In. }
  assert (Hshape : shape (length x) (max_seq_len self) (loss_mask tr)).
  { rewrite Hm. apply shape_intro.
    - unfold primary_mask, num_tokens_mask.
      rewrite length_zip_with_l_eq; rewrite !length_fmap;
        destruct Hkeys as [-> _]; done.
    - intros i row Hi.
      apply primary_mask_row_lookup
        in Hi as (keys & t & Hk & _ & _ & -> & _).
      by apply (shape_lookup _ _ _ _ _ Hkeys Hk). }
  split; [| done].
  rewrite Hl, <- Hm. apply length_masked_select.
  - destruct Hshape as [-> _]. done.
  - apply Forall2_same_length_lookup. split.
    + rewrite length_take. destruct Hshape as [-> _]. lia.
    + intros i m r Hmi Hri.
      apply lookup_take_Some in Hri as [Hri _].
      rewrite Forall_lookup in Hx.
      rewrite (Hx _ _ Hri).
      by rewrite (proj2 (shape_lookup _ _ _ _ _ Hshape Hmi)).
Qed.

Lemma forward_labels_count_witness :
  let tr := {| masked := [[11; 12; 13; 24; 15; 16]]%Z;
               self_cond_pass := None;
               loss_mask := [[true; false; false; true; false; true]];
               labels := [11; 14; 16]%Z |} in
  length (labels tr) = sum_list (sum_mask <$> loss_mask tr) ∧
  shape (length example_x) (max_seq_len example_wrapper) (loss_mask tr).
Proof.
  intros tr.
  apply (forward_labels_count example_wrapper example_x example_draws tr).
  - split; [reflexivity |]. repeat constructor.
  - reflexivity.
  - vm_compute. reflexivity.
Defined.

(** ** generate: the counts and the temperature of the rounds *)

(** X9: for a schedule that is non-increasing with values in [0, 1], there
    is one count per round, every count lies between 0 and the sequence
    length, and the counts never increase from one round to the next. *)
Theorem all_mask_num_tokens_decreasing (self : wrapper) :
  (∀ t, (0 <= t <= 1)%Q → (0 <= schedule_fn self t <= 1)%Q) →
  (∀ t1 t2, (0 <= t1)%Q → (t1 <= t2)%Q → (t2 <= 1)%Q →
            (schedule_fn self t2 <= schedule_fn self t1)%Q) →
  length (all_mask_num_tokens self) = steps self ∧
  (∀ i k, all_mask_num_tokens self !! i = Some k →
          (0 ≤ k ≤ Z.of_nat (max_seq_len self))%Z) ∧
  (∀ i j ki kj, i ≤ j →
     all_mask_num_tokens self !! i = Some ki →
     all_mask_num_tokens self !! j = Some kj → (kj ≤ ki)%Z).
Proof.
  intros Hrange Hmono. split; [apply length_all_mask_num_tokens |].
  assert (Hlt : ∀ i k, all_mask_num_tokens self !! i = Some k →
                       i < steps self).
  { intros i k Hi. rewrite <- length_all_mask_num_tokens.
    by eapply lookup_lt_Some. }
  split.
  - intros i k Hi. pose proof (Hlt _ _ Hi) as Hs.
    rewrite all_mask_num_tokens_lookup in Hi by done. injection Hi as <-.
    apply count_range, Hrange, sample_time_range. lia.
  - intros i j ki kj Hij Hi Hj.
    pose proof (Hlt _ _ Hi) as Hsi. pose proof (Hlt _ _ Hj) as Hsj.
    rewrite all_mask_num_tokens_lookup in Hi by done.
    rewrite all_mask_num_tokens_lookup in Hj by done.
    injection Hi as <-. injection Hj as <-.
    apply Qtrunc_le, Qmult_le_compat_r.
    + apply Hmono.
      * apply (sample_time_range (steps self) (S i)). lia.
      * apply sample_time_mono. lia.
      * apply (sample_time_range (steps self) (S j)). lia.
    + apply (Qnat_le 0). lia.
Qed.

Lemma all_mask_num_tokens_decreasing_witness :
  length (all_mask_num_tokens example_wrapper) = steps example_wrapper ∧
  (∀ i k, all_mask_num_tokens example_wrapper !! i = Some k →
          (0 ≤ k ≤ Z.of_nat (max_seq_len example_wrapper))%Z) ∧
  (∀ i j ki kj, i ≤ j →
     all_mask_num_tokens example_wrapper !! i = Some ki →
     all_mask_num_tokens example_wrapper !! j = Some kj → (kj ≤ ki)%Z).
Proof.
  apply (all_mask_num_tokens_decreasing example_wrapper).
  - intros t Ht. simpl. unfold linear_schedule. lra.
  - intros t1 t2 H0 H12 H1. simpl. unfold linear_schedule. lra.
Defined.

Lemma round_plan_lookup_steps (self : wrapper) (i : nat) k s :
  round_plan self !! i = Some (k, s) → s = steps self - 1 - i.
Proof.
  unfold round_plan. intros H.
  apply lookup_zip_with_Some in H as (x & y & [= -> ->] & _ & Hy).
  assert (Hi : i < steps self).
  { apply lookup_lt_Some in Hy. by rewrite length_reverse, length_seq in Hy. }
  rewrite reverse_lookup in Hy by (by rewrite length_seq).
  rewrite length_seq in Hy. apply lookup_seq in Hy as [-> _]. lia.
Qed.

Lemma sampling_temperature_floor (self : wrapper) (T : Q) (i : nat) :
  (1 # 1000 <= sampling_temperature self T i)%Q.
Proof.
  unfold sampling_temperature, Qmax.
  destruct (Qle_bool _ _) eqn:E; [apply Qle_refl |].
  apply not_true_iff_false in E. rewrite Qle_bool_iff in E.
  apply Qnot_le_lt in E. by apply Qlt_le_weak.
Qed.

Lemma Qmax_le_compat (x y c : Q) : (x <= y)%Q → (Qmax x c <= Qmax y c)%Q.
Proof.
  intros H. unfold Qmax.
  destruct (Qle_bool x c) eqn:Ex, (Qle_bool y c) eqn:Ey.
  - apply Qle_refl.
  - apply not_true_iff_false in Ey. rewrite Qle_bool_iff in Ey.
    apply Qnot_le_lt in Ey. by apply Qlt_le_weak.
  - apply Qle_bool_iff in Ey.
    apply not_true_iff_false in Ex. rewrite Qle_bool_iff in Ex. lra.
  - done.
Qed.

Section Temperature.
Context {World : Type}.
Variable net_sample :
  World → bool → Q → tensor Z → World * (tensor Z * tensor Q).
Variable finfo_max : Q.
Variable self : wrapper.
Variable batch_size : nat.
Variable T : Q.
Variable w : World.

(** The call of the collaborators in the round that ends in [tr !! i]. *)
Lemma decode_round_call tr (i : nat) st' :
  decode net_sample finfo_max self batch_size T w = Some tr →
  tr !! i = Some st' →
  ∃ ids scores,
    net_sample
      (g_world (prev_state (initial_state self batch_size w) tr i))
      (net_training self) (sampling_temperature self T i)
      (g_seq (prev_state (initial_state self batch_size w) tr i))
    = (g_world st', (ids, scores)).
Proof.
  unfold decode. intros H Hi.
  destruct (rounds_lookup _ _ _ _ _ _ _ H) as [_ Hr].
  destruct (Hr _ _ Hi) as (k & s & Hplan & Hround).
  apply round_plan_lookup_steps in Hplan as ->.
  apply round_view in Hround
    as (w' & ids & scores & idxs & Hnet & _ & Hw & _ & _).
  exists ids, scores. unfold sampling_temperature. by rewrite Hnet, Hw.
Qed.
End Temperature.

(** X10: round [i] of [generate] samples in evaluation mode, from the
    world and the sequence left by the round before, at the temperature
    [max(start_temperature * (steps - 1 - i) / steps, 0.001)]; this is at
    least 0.001, never increases over the rounds for a non-negative start
    temperature, and is 0.001 in the last round. *)
Theorem generate_round_temperature {World : Type}
    (net_sample : World → bool → Q → tensor Z → World * (tensor Z * tensor Q))
    (finfo_max : Q) (self : wrapper) (batch_size : option nat) (T : Q)
    (w : World) (tr : list gen_state) :
  decode net_sample finfo_max (eval self) (default 1 batch_size) T w
  = Some tr →
  let st0 := initial_state (eval self) (default 1 batch_size) w in
  (∀ i st', tr !! i = Some st' →
     ∃ ids scores,
       net_sample (g_world (prev_state st0 tr i)) false
         (sampling_temperature self T i) (g_seq (prev_state st0 tr i))
       = (g_world st', (ids, scores))) ∧
  (∀ i, (1 # 1000 <= sampling_temperature self T i)%Q) ∧
  ((0 <= T)%Q → ∀ i i', i ≤ i' →
     (sampling_temperature self T i' <= sampling_temperature self T i)%Q) ∧
  sampling_temperature self T (steps self - 1) = 1 # 1000.
Proof.
  intros H st0. split_and!.
  - intros i st' Hi.
    apply (decode_round_call net_sample finfo_max (eval self) _ T w tr i st'
             H Hi).
  - apply sampling_temperature_floor.
  - intros HT i i' Hii. unfold sampling_temperature.
    apply Qmax_le_compat.
    pose proof (sample_time_mono (steps self) (steps self - 1 - i')
                  (steps self - 1 - i)) as Hm.
    assert (Hle : steps self - 1 - i' ≤ steps self - 1 - i) by lia.
    specialize (Hm Hle). nra.
  - unfold sampling_temperature.
    replace (steps self - 1 - (steps self - 1)) with 0 by lia.
    unfold Qmax.
    destruct (Qle_bool _ _) eqn:E; [done |].
    apply not_true_iff_false in E. rewrite Qle_bool_iff in E.
    exfalso. apply E. change (Qnat 0) with 0%Q.
    assert (T * (0 / Qnat (steps self)) == 0)%Q as -> by (unfold Qdiv; ring).
    discriminate.
Qed.

Lemma generate_round_temperature_witness :
  let st0 := initial_state (eval example_wrapper) 2 0 in
  (∀ i st', example_trace !! i = Some st' →
     ∃ ids scores,
       example_net (g_world (prev_state st0 example_trace i)) false
         (sampling_temperature example_wrapper 1 i)
         (g_seq (prev_state st0 example_trace i))
       = (g_world st', (ids, scores))) ∧
  (∀ i, (1 # 1000 <= sampling_temperature example_wrapper 1 i)%Q) ∧
  ((0 <= 1)%Q → ∀ i i', i ≤ i' →
     (sampling_temperature example_wrapper 1 i'
      <= sampling_temperature example_wrapper 1 i)%Q) ∧
  sampling_temperature example_wrapper 1 (steps example_wrapper - 1)
  = 1 # 1000.
Proof.
  apply (generate_round_temperature example_net float32_max example_wrapper
           (Some 2) 1 0 example_trace).
  vm_compute. reflexivity.
Defined.

(** ** generate: the sequence and the mask agree *)

Section MaskToken.
Context {World : Type}.
Variable net_sample :
  World → bool → Q → tensor Z → World * (tensor Z * tensor Q).
Variable finfo_max : Q.
Variable self : wrapper.
Variable T : Q.

Hypothesis contract : net_contract net_sample (num_tokens self).

Lemma round_masked_hold_mask_id b n (st st' : @gen_state World) k s
    (i j : nat) :
  state_shape b n st →
  round net_sample finfo_max self T st k s = Some st' →
  lookup2 (g_mask st') i j = Some true →
  lookup2 (g_seq st') i j = Some (mask_id self).
Proof.
  intros Hst H Hm'.
  apply lookup2_Some in Hm' as (mask_r0' & Hmr0' & Hmj').
  pose proof (round_shape net_sample finfo_max self T contract _ _ _ _ _ _
                Hst H) as Hst'.
  assert (Hi : i < b).
  { destruct Hst' as [_ [<- _]]. by eapply lookup_lt_Some. }
  destruct (round_row net_sample finfo_max self T contract b n st k s st' i
              Hst H Hi)
    as (seq_r & mask_r & ids_r & scores_r & idxs_r & Hsq & Hmr & Hlsq & Hlm
        & Hli & Hls & _ & _ & _ & Hmr' & Hsq').
  cbv zeta in Hmr', Hsq'.
  rewrite Hmr' in Hmr0'. injection Hmr0' as <-.
  apply lookup2_Some. eexists. split; [exact Hsq' |].
  assert (Hj : j < n).
  { apply lookup_lt_Some in Hmj'.
    rewrite length_scatter_row, length_fmap in Hmj'.
    rewrite (length_masked_fill_row _ _ _ n) in Hmj'; [done | done |].
    unfold not_row. by rewrite length_fmap. }
  destruct (lookup_lt_is_Some_2 seq_r j) as [v Hv]; [lia |].
  destruct (lookup_lt_is_Some_2 ids_r j) as [a Ha]; [lia |].
  destruct (lookup_lt_is_Some_2 mask_r j) as [c Hc]; [lia |].
  apply masked_fill_row_lookup.
  exists (if c then a else v), true. split; [| done].
  by apply where_row_lookup.
Qed.
End MaskToken.

(** X11: at the end of every round a masked position holds the mask id;
    and when the mask id is not a vocabulary id, only masked positions
    hold it. *)
Theorem generate_masked_positions_hold_mask_id {World : Type}
    (net_sample : World → bool → Q → tensor Z → World * (tensor Z * tensor Q))
    (finfo_max : Q) (self : wrapper) (batch_size : option nat) (T : Q)
    (w : World) (tr : list gen_state) (i : nat) (st : gen_state) :
  net_contract net_sample (num_tokens self) →
  decode net_sample finfo_max (eval self) (default 1 batch_size) T w
  = Some tr →
  tr !! i = Some st →
  (∀ b j, lookup2 (g_mask st) b j = Some true →
          lookup2 (g_seq st) b j = Some (mask_id self)) ∧
  (¬ (0 ≤ mask_id self < num_tokens self)%Z →
   ∀ b j, lookup2 (g_seq st) b j = Some (mask_id self) →
          lookup2 (g_mask st) b j = Some true).
Proof.
  intros Hc Htr Hi.
  destruct (decode_round _ _ _ _ _ _ _ _ _ Htr Hi) as (k & s & _ & Hround).
  destruct (decode_shape net_sample finfo_max (eval self) _ T w Hc _ _ _
              Htr Hi) as [Hprev [Hseq Hmask]].
  split.
  - intros b j Hm.
    by apply (round_masked_hold_mask_id net_sample finfo_max (eval self) T Hc
                _ _ _ _ _ _ b j Hprev Hround).
  - intros Hid b j Hv.
    pose proof (decode_unmasked_in_vocab net_sample finfo_max (eval self) _
                  T w Hc _ _ _ Htr Hi) as Hvocab.
    pose proof Hv as Hv'.
    apply lookup2_Some in Hv as (row & Hrow & Hj).
    destruct (shape_lookup _ _ _ _ _ Hseq Hrow) as [Hb Hlrow].
    destruct (shape_is_Some _ _ _ _ Hmask Hb) as (mrow & Hmrow & Hlm).
    destruct (lookup_lt_is_Some_2 mrow j) as [m Hm].
    { rewrite Hlm, <- Hlrow. by eapply lookup_lt_Some. }
    apply lookup2_Some. exists mrow. split; [done |].
    destruct m; [done |]. exfalso. apply Hid.
    apply (Hvocab b j); [| done].
    apply lookup2_Some. eauto.
Qed.

Lemma generate_masked_positions_hold_mask_id_witness :
  let st := default (initial_state example_wrapper 2 0)
              (example_trace !! 1) in
  (∀ b j, lookup2 (g_mask st) b j = Some true →
          lookup2 (g_seq st) b j = Some (mask_id example_wrapper)) ∧
  (¬ (0 ≤ mask_id example_wrapper < num_tokens example_wrapper)%Z →
   ∀ b j, lookup2 (g_seq st) b j = Some (mask_id example_wrapper) →
          lookup2 (g_mask st) b j = Some true).
Proof.
  intros st.
  apply (generate_masked_positions_hold_mask_id example_net float32_max
           example_wrapper (Some 2) 1 0 example_trace 1 st).
  - apply example_net_contract.
  - vm_compute. reflexivity.
  - reflexivity.
Defined.

(** ** generate: the value returned *)

(** X12: [generate] without [batch_size] returns the row [row] exactly
    when [generate] with [batch_size = 1] returns the batch [[row]]. *)
Theorem generate_single_is_batch_of_one {World : Type}
    (net_sample : World → bool → Q → tensor Z → World * (tensor Z * tensor Q))
    (finfo_max : Q) (self : wrapper) (T : Q) (w : World) (row : list Z) :
  (generate net_sample finfo_max self None T w).2 = Some (OneSequence row) ↔
  (generate net_sample finfo_max self (Some 1) T w).2 = Some (Batch [row]).
Proof.
  unfold generate. simpl.
  destruct (decode _ _ _ _ _ _) as [tr|]; simpl; [| done].
  destruct (g_seq _) as [|r [|r' rest]]; simpl; split; intros H;
    by simplify_eq.
Qed.

Lemma generate_single_is_batch_of_one_witness :
  (generate example_net float32_max example_wrapper None 1 0).2
  = Some (OneSequence example_output_row).
Proof.
  apply (proj2 (generate_single_is_batch_of_one example_net float32_max
                  example_wrapper 1 0 example_output_row)).
  vm_compute. reflexivity.
Defined.


(** X13: what [generate] returns is a batch of [batch_size] rows of
    length [max_seq_len], or one row of that length when [batch_size] is
    omitted. *)
Theorem generate_output_shape {World : Type}
    (net_sample : World → bool → Q → tensor Z → World * (tensor Z * tensor Q))
    (finfo_max : Q) (self : wrapper) (batch_size : option nat) (T : Q)
    (w : World) (out : gen_output) :
  net_contract net_sample (num_tokens self) →
  (generate net_sample finfo_max self batch_size T w).2 = Some out →
  match out with
  | OneSequence seq => batch_size = None ∧ length seq = max_seq_len self
  | Batch seq =>
      ∃ b, batch_size = Some b ∧ shape b (max_seq_len self) seq
  end.
Proof.
  intros Hc. unfold generate.
  destruct (decode _ _ _ _ _ _) as [tr|] eqn:Htr; [| done].
  assert (Hshape : shape (default 1 batch_size) (max_seq_len self)
            (g_seq (default
                      (initial_state (eval self) (default 1 batch_size) w)
                      (last tr)))).
  { destruct (last tr) as [st|] eqn:Hlast; simpl.
    - rewrite last_is_lookup in Hlast.
      by destruct (decode_shape net_sample finfo_max (eval self) _ T w Hc
                     _ _ _ Htr Hlast) as [_ [Hseq _]].
    - apply shape_replicate. }
  destruct batch_size as [b|]; simpl in *.
  - intros [= <-]. eauto.
  - destruct Hshape as [Hlen Hrows].
    destruct (g_seq _) as [|r [|r' rest]]; simpl in *; try done.
    intros [= <-]. split; [done |].
    by apply Forall_cons in Hrows as [Hr _].
Qed.

Lemma generate_output_shape_witness :
  ∃ b, Some 2 = Some b ∧
       shape b (max_seq_len example_wrapper)
         [example_output_row; example_output_row].
Proof.
  apply (generate_output_shape example_net float32_max example_wrapper
           (Some 2) 1 0 (Batch [example_output_row; example_output_row])).
  - apply example_net_contract.
  - vm_compute. reflexivity.
Defined.

(** X14: with [steps = 0] and a mask id that [torch.full] can store as
    an int64, the loop does not run and [generate] returns the all-masked
    sequence, with both training flags as they were. *)
Theorem generate_zero_steps {World : Type}
    (net_sample : World → bool → Q → tensor Z → World * (tensor Z * tensor Q))
    (finfo_max : Q) (self : wrapper) (batch_size : option nat) (T : Q)
    (w : World) :
  steps self = 0 →
  int64 (mask_id self) →
  (generate net_sample finfo_max self batch_size T w).2
  = Some (match batch_size with
          | None => OneSequence (replicate (max_seq_len self) (mask_id self))
          | Some b =>
              Batch (replicate b
                       (replicate (max_seq_len self) (mask_id self)))
          end) ∧
  training (generate net_sample finfo_max self batch_size T w).1
  = training self ∧
  net_training (generate net_sample finfo_max self batch_size T w).1
  = training self.
Proof.
  intros Hs _. unfold generate, decode, round_plan.
  change (steps (eval self)) with (steps self). rewrite Hs.
  change (reverse (seq 0 0)) with (@nil nat).
  rewrite zip_with_nil_r. simpl.
  by destruct batch_size.
Qed.

Lemma generate_zero_steps_witness :
  let self := {| mask_id := 100; steps := 0; max_seq_len := 3;
                 num_tokens := 100; no_replace_prob := 15 # 100;
                 random_token_prob := 5 # 100;
                 schedule_fn := linear_schedule; self_cond := false;
                 self_cond_train_prob := 3 # 4; training := true;
                 net_training := true |} in
  (generate example_net float32_max self None 1 0).2
  = Some (OneSequence [100; 100; 100]%Z) ∧
  training (generate example_net float32_max self None 1 0).1 = true ∧
  net_training (generate example_net float32_max self None 1 0).1 = true.
Proof.
  intros self.
  apply (generate_zero_steps example_net float32_max self None 1 0).
  - reflexivity.
  - unfold int64. simpl. lia.
Defined.

(** ** generate: a count out of range *)

Section OutOfRange.
Context {World : Type}.
Variable net_sample :
  World → bool → Q → tensor Z → World * (tensor Z * tensor Q).
Variable finfo_max : Q.
Variable self : wrapper.
Variable T : Q.

Hypothesis contract : net_contract net_sample (num_tokens self).

(** A round that ends asked for a count within the row length. *)
Lemma round_count_in_range b n (st st' : @gen_state World) k s :
  state_shape b n st → 0 < b →
  round net_sample finfo_max self T st k s = Some st' →
  (0 ≤ k ≤ Z.of_nat n)%Z.
Proof.
  intros Hst Hb H.
  destruct (round_shape net_sample finfo_max self T contract _ _ _ _ _ _
              Hst H) as [_ Hmask'].
  destruct (shape_is_Some _ _ _ 0 Hmask' Hb) as (row & Hrow & Hlen).
  apply list_elem_of_lookup_2 in Hrow.
  destruct (round_mask_count _ _ _ _ _ _ _ _ _ H Hrow) as [Hk <-].
  pose proof (sum_mask_le_length row). lia.
Qed.

Lemma rounds_None_out_of_range b n plan : ∀ st : @gen_state World,
  state_shape b n st → 0 < b →
  Exists (λ p : Z * nat, (p.1 < 0 ∨ Z.of_nat n < p.1)%Z) plan →
  rounds net_sample finfo_max self T st plan = None.
Proof.
  induction plan as [|[k s] plan IH]; intros st Hst Hb Hex; simpl.
  - by apply Exists_nil in Hex.
  - destruct (round net_sample finfo_max self T st k s) as [st1|] eqn:E;
      [| done].
    pose proof (round_count_in_range _ _ _ _ _ _ Hst Hb E) as Hk.
    apply Exists_cons in Hex as [Hbad | Hex]; [simpl in Hbad; lia |].
    rewrite (IH st1); [done | | done | done].
    by eapply round_shape.
Qed.
End OutOfRange.

(** X15: when some precomputed count is negative or above the sequence
    length, [generate] on a non-empty batch raises and leaves the wrapper
    and the net in evaluation mode. *)
Theorem generate_raises_on_count_out_of_range {World : Type}
    (net_sample : World → bool → Q → tensor Z → World * (tensor Z * tensor Q))
    (finfo_max : Q) (self : wrapper) (batch_size : option nat) (T : Q)
    (w : World) :
  net_contract net_sample (num_tokens self) →
  batch_size ≠ Some 0 →
  Exists (λ k, (k < 0 ∨ Z.of_nat (max_seq_len self) < k)%Z)
    (all_mask_num_tokens self) →
  (generate net_sample finfo_max self batch_size T w).2 = None ∧
  training (generate net_sample finfo_max self batch_size T w).1 = false ∧
  net_training (generate net_sample finfo_max self batch_size T w).1 = false.
Proof.
  intros Hc Hb Hex.
  assert (Hnone : decode net_sample finfo_max (eval self)
                    (default 1 batch_size) T w = None).
  { unfold decode.
    apply (rounds_None_out_of_range net_sample finfo_max (eval self) T Hc
             (default 1 batch_size) (max_seq_len self)).
    - apply (initial_state_shape (eval self)).
    - destruct batch_size as [[|b]|]; simpl; [done | lia | lia].
    - apply Exists_exists in Hex as (k & Hk & Hbad).
      apply list_elem_of_lookup in Hk as [i Hi].
      assert (Hlt : i < steps self).
      { rewrite <- length_all_mask_num_tokens. by eapply lookup_lt_Some. }
      destruct (lookup_lt_is_Some_2 (round_plan (eval self)) i) as [[k' s] Hp].
      { by rewrite length_round_plan. }
      pose proof (round_plan_lookup _ _ _ _ Hp) as Hk'.
      change (all_mask_num_tokens (eval self))
        with (all_mask_num_tokens self) in Hk'.
      rewrite Hi in Hk'. injection Hk' as <-.
      apply Exists_exists. exists (k, s). split; [| done].
      by eapply list_elem_of_lookup_2. }
  unfold generate. by rewrite Hnone.
Qed.

Lemma generate_raises_on_count_out_of_range_witness :
  let self := {| mask_id := 100; steps := 2; max_seq_len := 6;
                 num_tokens := 100; no_replace_prob := 15 # 100;
                 random_token_prob := 5 # 100;
                 schedule_fn := λ t, (2 - t)%Q; self_cond := false;
                 self_cond_train_prob := 3 # 4; training := true;
                 net_training := true |} in
  (generate example_net float32_max self None 1 0).2 = None ∧
  training (generate example_net float32_max self None 1 0).1 = false ∧
  net_training (generate example_net float32_max self None 1 0).1 = false.
Proof.
  intros self.
  apply (generate_raises_on_count_out_of_range example_net float32_max self
           None 1 0).
  - apply example_net_contract.
  - discriminate.
  - vm_compute. apply Exists_cons_hd. right. reflexivity.
Defined.
